(** * Doubly-linked lists over token-guarded cells (rust-cells)

    A shallow embedding of the list code shared by [src/qcell.rs],
    [src/tcell.rs] and [src/ghost_cell.rs] (the functions [Node::new],
    [Node::remove], [Node::insert_next], [Node::from_iter],
    [Node::view_as_vec] are the same code in the three files, only the cell
    type differs), of the deque of [src/cell_family.rs], and of the
    token/cell layer those files use from the [qcell], [ghost_cell] and
    [cell_family] crates.

    Memory: every [Arc]/[Rc] allocation is a location of a heap.  A slot is
    [Live b n] while its value exists (stamped with the brand [b] of the
    cell) and [Dropped] once its value has been destroyed while [Weak]
    handles still keep the allocation itself: [Weak::upgrade] on a dropped
    slot yields [None], and the address is never handed out again. *)

From stdpp Require Import base gmap list strings.

(** ** Brands, tokens and errors *)

(** The brand a cell is stamped with, and that a token presents.
    [Static m]: a [TCellOwner<m>] for the marker type [m] (tcell.rs);
    [Dynamic i]: a [QCellOwner] with runtime identity [i] (qcell.rs). *)
Inductive brand :=
| Static (marker : string)
| Dynamic (id : N).

Global Instance brand_eq_dec : EqDecision brand.
Proof. solve_decision. Defined.

Inductive err :=
| BrandMismatch
| AliasViolation
| DuplicateOwner
| DeadCell.  (* access through a strong pointer to a destroyed value;
                impossible in Rust, where an [Arc] keeps its value alive *)

Definition loc := positive.

(** ** The list node *)

(** [pub struct Node<T> { data: T, next: Option<NodePtr<T>>,
    prev: Option<WeakNodePtr<T>> }]: [next] is a strong [Arc] pointer,
    [prev] a [Weak] one. *)
Record Node (T : Type) := mkNode {
  data : T;
  next : option loc;
  prev : option loc
}.
Arguments mkNode {T} _ _ _.
Arguments data {T} _.
Arguments next {T} _.
Arguments prev {T} _.

Definition set_next {T} (v : option loc) (n : Node T) : Node T :=
  mkNode (data n) v (prev n).
Definition set_prev {T} (v : option loc) (n : Node T) : Node T :=
  mkNode (data n) (next n) v.
Definition set_data {T} (v : T) (n : Node T) : Node T :=
  mkNode v (next n) (prev n).

Inductive slot (T : Type) :=
| Live (b : brand) (n : Node T)
| Dropped.
Arguments Live {T} _ _.
Arguments Dropped {T}.

Abbreviation heap T := (gmap loc (slot T)).

(** ** The effect of the Rust code: state and failure *)

(** A computation reads and writes the heap and may abort (a panic of the
    cell layer). *)
Definition M (T X : Type) : Type := heap T -> err + (X * heap T).

Global Instance M_ret T : MRet (M T) := fun X x h => inr (x, h).
Global Instance M_bind T : MBind (M T) := fun X Y f m h =>
  match m h with
  | inl e => inl e
  | inr (x, h') => f x h'
  end.

Definition fail {T X} (e : err) : M T X := fun _ => inl e.

Section cells.
Context {T : Type}.
Implicit Types (h : heap T) (l : loc) (tok : brand).

(** Modelled from the spec: [QCell::rw], [TCell::rw] and
    [GhostCell::borrow_mut] of the cell crates (not in this repository).
    Access is granted when the token presents the cell's brand; a QCell
    checks this at run time, for TCell and GhostCell the type system
    guarantees it, so the check always passes on well-typed code. *)
Definition ro h tok l : err + Node T :=
  match h !! l with
  | Some (Live b n) => if decide (b = tok) then inr n else inl BrandMismatch
  | _ => inl DeadCell
  end.

Definition rw tok l : M T (Node T) := fun h =>
  match ro h tok l with
  | inl e => inl e
  | inr n => inr (n, h)
  end.

(** Store a node value through the mutable view returned by [rw]. *)
Definition write tok l (n : Node T) : M T unit := fun h =>
  match h !! l with
  | Some (Live b _) =>
      if decide (b = tok) then inr (tt, <[l := Live b n]> h) else inl BrandMismatch
  | _ => inl DeadCell
  end.

Definition modify tok l (f : Node T -> Node T) : M T unit :=
  n ← rw tok l; write tok l (f n).

(** [Weak::upgrade]: the target if its value still exists. *)
Definition upgrade_in h (w : option loc) : option loc :=
  match w with
  | Some p => match h !! p with Some (Live _ _) => Some p | _ => None end
  | None => None
  end.

Definition upgrade (w : option loc) : M T (option loc) := fun h =>
  inr (upgrade_in h w, h).

(** [node.prev.take()] and [node.next.take()]. *)
Definition take_prev tok l : M T (option loc) :=
  n ← rw tok l; write tok l (set_prev None n);; mret (prev n).
Definition take_next tok l : M T (option loc) :=
  n ← rw tok l; write tok l (set_next None n);; mret (next n).

(** ** The list operations (identical in qcell.rs, tcell.rs, ghost_cell.rs) *)

(** [Node::new]: [Arc::new(QCell::new(owner, Node { data, None, None }))];
    the fresh allocation is an address not used by any other allocation. *)
Definition node_new tok (value : T) : M T loc := fun h =>
  let l := fresh (dom h) in
  inr (l, <[l := Live tok (mkNode value None None)]> h).

(** [Node::remove(node, token)]: the relinking.  When the call returns,
    its local [old_prev] and [old_next] handles are released; a node whose
    last strong pointer was [old_next] (with no predecessor to take it) is
    destroyed then.  That destruction is not part of this function: it is
    the [step_release] steps of [step] that follow the call. *)
Definition remove tok (node : loc) : M T unit :=
  p ← take_prev tok node;
  old_prev ← upgrade p;
  old_next ← take_next tok node;
  (match old_next with
   | Some on => modify tok on (set_prev old_prev)
   | None => mret tt
   end);;
  (match old_prev with
   | Some op => modify tok op (set_next old_next)
   | None => mret tt
   end).

(** [Node::insert_next(node1, node2, token)]. *)
Definition insert_next tok (node1 node2 : loc) : M T unit :=
  remove tok node2;;
  node1_old_next ← take_next tok node1;
  (match node1_old_next with
   | Some o => modify tok o (set_prev (Some node2))
   | None => mret tt
   end);;
  modify tok node2 (fun n => set_next node1_old_next (set_prev (Some node1) n));;
  modify tok node1 (set_next (Some node2)).

(** The [while let Some(e) = iter.next()] loop of [Node::from_iter]. *)
Fixpoint from_iter_loop tok (tail : loc) (es : list T) : M T unit :=
  match es with
  | [] => mret tt
  | e :: es' =>
      node ← node_new tok e;
      insert_next tok tail node;;
      from_iter_loop tok node es'
  end.

(** [Node::from_iter(token, elements)]. *)
Definition from_iter tok (elements : list T) : M T (option loc) :=
  match elements with
  | [] => mret None
  | first_element :: es =>
      head ← node_new tok first_element;
      from_iter_loop tok head es;;
      mret (Some head)
  end.

End cells.

(** Outcome of a loop run for at most a given number of iterations. *)
Inductive outcome (X : Type) :=
| Finished (x : X)
| Stuck (e : err)
| OutOfFuel.
Arguments Finished {X} _.
Arguments Stuck {X} _.
Arguments OutOfFuel {X}.

(** [Node::view_as_vec(head, token)]: the [while let Some(node) = cur] loop,
    run for at most [fuel] iterations. *)
Fixpoint view_as_vec {T} (fuel : nat) (h : heap T) (tok : brand)
    (cur : option loc) : outcome (list T) :=
  match cur with
  | None => Finished []
  | Some l =>
      match fuel with
      | O => OutOfFuel
      | S fuel' =>
          match ro h tok l with
          | inl e => Stuck e
          | inr n =>
              match view_as_vec fuel' h tok (next n) with
              | Finished v => Finished (data n :: v)
              | o => o
              end
          end
      end
  end.

(** ** Views of a heap, location by location *)

Section views.
Context {T : Type}.
Implicit Types (h : heap T) (s : slot T) (l x : loc).

Definition slot_brand s : option brand :=
  match s with Live b _ => Some b | Dropped => None end.
Definition slot_data s : option T :=
  match s with Live _ n => Some (data n) | Dropped => None end.
Definition slot_next s : option loc :=
  match s with Live _ n => next n | Dropped => None end.
Definition slot_prev s : option loc :=
  match s with Live _ n => prev n | Dropped => None end.

Definition brand_at h x : option brand := h !! x ≫= slot_brand.
Definition dataof h x : option T := h !! x ≫= slot_data.
Definition nextof h x : option loc := default None (slot_next <$> h !! x).
Definition prevof h x : option loc := default None (slot_prev <$> h !! x).

(** Every live cell of [h] is stamped with [tok]: the token owns the heap. *)
Definition owned_by h (tok : brand) : Prop :=
  forall x b n, h !! x = Some (Live b n) -> b = tok.

End views.

(** ** Steady state and the interleavings of the list operations *)

(** The spec's steady-state invariant: for adjacent nodes [A] before [B]
    ([A.next] holds [B]), [B] is a live node and upgrading [B.prev]
    yields [A]. *)
Definition list_inv {T} (h : heap T) : Prop :=
  forall A bA nA B, h !! A = Some (Live bA nA) -> next nA = Some B ->
  exists bB nB, h !! B = Some (Live bB nB) /\ upgrade_in h (prev nB) = Some A.

(** [A] holds a strong pointer to [B]: the only strong field of a list node
    is [next]. *)
Definition owns {T} (h : heap T) (A B : loc) : Prop :=
  exists b n, h !! A = Some (Live b n) /\ next n = Some B.

(** One completed call between two steady states: a node is created, one of
    the two mutating operations returns, or a node's value is destroyed
    when its last [Arc] is released.  Only strong pointers keep a value
    alive, so a node can be destroyed only when no live node owns it; the
    caller's own [Arc]s are outside the heap, so this over-approximates
    the destructions Rust performs. *)
Inductive step {T} : heap T -> heap T -> Prop :=
| step_new tok (v : T) h l h' :
    node_new tok v h = inr (l, h') -> step h h'
| step_remove tok n h h' :
    remove tok n h = inr (tt, h') -> step h h'
| step_insert_next tok a b h h' :
    insert_next tok a b h = inr (tt, h') -> step h h'
| step_release h l b n :
    h !! l = Some (Live b n) ->
    (forall x, ~ owns h x l) ->
    step h (<[l := Dropped]> h).

(** ** The token layer *)

(** Modelled from the spec: [TCellOwner::rw2] of the qcell crate (not in
    this repository), used by [two_simultaneous_borrows] in tcell.rs.  It
    refuses two handles to the same cell with [AliasViolation]; otherwise
    it hands out two mutable views, modelled here by the updates [f1] and
    [f2] the caller makes through them. *)
Definition rw2 {T} (tok : brand) (c1 c2 : loc) (f1 f2 : Node T -> Node T) : M T unit :=
  if decide (c1 = c2) then fail AliasViolation
  else modify tok c1 f1;; modify tok c2 f2.

(** The owners alive in the process: the marker types that have a live
    [TCellOwner], and the next runtime identity for a [QCellOwner]. *)
Record owners := mkOwners {
  live_markers : gset string;
  next_id : N
}.

(** Modelled from the spec: [TCellOwner::<Marker>::new] of the qcell crate
    (not in this repository): at most one live owner per marker type,
    a second construction fails with [DuplicateOwner]. *)
Definition tcell_owner_new (o : owners) (marker : string) : err + (brand * owners) :=
  if decide (marker ∈ live_markers o) then inl DuplicateOwner
  else inr (Static marker, mkOwners ({[marker]} ∪ live_markers o) (next_id o)).


(** ** The deque of cell_family.rs *)

Module Deque.

(** [struct Node<T> { data: T, next: Option<Rc<FooCell<Node<T>>>>,
    previous: Option<Rc<FooCell<Node<T>>>> }]: both links are strong [Rc]
    pointers.  A [FooCell] has no runtime brand: the family's single
    [FooCellOwner] grants access to every cell. *)
Record DNode (T : Type) := mkDNode {
  ddata : T;
  dnext : option loc;
  dprevious : option loc
}.
Arguments mkDNode {T} _ _ _.
Arguments ddata {T} _.
Arguments dnext {T} _.
Arguments dprevious {T} _.

Record Deque (T : Type) := mkDeque {
  cells : gmap loc (DNode T);
  head : option loc;
  tail : option loc
}.
Arguments mkDeque {T} _ _ _.
Arguments cells {T} _.
Arguments head {T} _.
Arguments tail {T} _.

Section deque.
Context {T : Type}.
Implicit Types (d : Deque T).

Definition empty : Deque T := mkDeque ∅ None None.

(** [Deque::add_to_empty]: [Rc::new(FooCell::new(x))] becomes head and tail. *)
Definition add_to_empty d (x : DNode T) : Deque T :=
  let node := fresh (dom (cells d)) in
  mkDeque (<[node := x]> (cells d)) (Some node) (Some node).

(** [Deque::add_first]. *)
Definition add_first d (x : T) : Deque T :=
  let node := mkDNode x None None in
  match head d with
  | None => add_to_empty d node
  | Some previous_head =>
      let new_head := fresh (dom (cells d)) in
      let cs := <[new_head := mkDNode x (Some previous_head) None]> (cells d) in
      let cs := alter (fun n => mkDNode (ddata n) (dnext n) (Some new_head))
                  previous_head cs in
      mkDeque cs (Some new_head) (tail d)
  end.

(** [Deque::add_last]. *)
Definition add_last d (x : T) : Deque T :=
  let node := mkDNode x None None in
  match tail d with
  | None => add_to_empty d node
  | Some previous_tail =>
      let new_tail := fresh (dom (cells d)) in
      let cs := <[new_tail := mkDNode x None (Some previous_tail)]> (cells d) in
      let cs := alter (fun n => mkDNode (ddata n) (Some new_tail) (dprevious n))
                  previous_tail cs in
      mkDeque cs (head d) (Some new_tail)
  end.

(** [X] holds a strong pointer to [Y]: both fields of a deque node are. *)
Definition owns d (X Y : loc) : Prop :=
  exists n, cells d !! X = Some n /\ (dnext n = Some Y \/ dprevious n = Some Y).

(** [Deque::as_vec]: the [while let Some(node) = next] loop, run for at
    most [fuel] iterations.  [node.get(&self.owner)] has no runtime check;
    the [Rc] keeps every reachable node alive, so the missing-cell case
    (reported as [DeadCell]) does not occur on a deque the code built. *)
Fixpoint as_vec_loop (fuel : nat) (cs : gmap loc (DNode T)) (next : option loc)
    : outcome (list T) :=
  match next with
  | None => Finished []
  | Some l =>
      match fuel with
      | O => OutOfFuel
      | S fuel' =>
          match cs !! l with
          | None => Stuck DeadCell
          | Some n =>
              match as_vec_loop fuel' cs (dnext n) with
              | Finished v => Finished (ddata n :: v)
              | o => o
              end
          end
      end
  end.

Definition as_vec (fuel : nat) d : outcome (list T) := as_vec_loop fuel (cells d) (head d).

(** The nodes [ls] hold [xs] in order, each [next] naming the following
    node and each [previous] the one before ([prev] for the first). *)
Fixpoint dlinked (cs : gmap loc (DNode T)) (prev : option loc) (ls : list loc) (xs : list T)
    : Prop :=
  match ls, xs with
  | [], [] => True
  | l :: ls', x :: xs' => cs !! l = Some (mkDNode x (hd_error ls') prev) /\ dlinked cs (Some l) ls' xs'
  | _, _ => False
  end.

(** A well-formed deque: [head] and [tail] are the ends of such a list. *)
Definition deque_inv d (ls : list loc) (xs : list T) : Prop :=
  dlinked (cells d) None ls xs /\ head d = hd_error ls /\ tail d = last ls /\ NoDup ls.

(** The calls a client such as [deque_example] makes, and the sequence
    each is meant to produce. *)
Inductive deque_op := AddFirst (x : T) | AddLast (x : T).

Definition run_op d (op : deque_op) : Deque T :=
  match op with AddFirst x => add_first d x | AddLast x => add_last d x end.

Definition model_op (xs : list T) (op : deque_op) : list T :=
  match op with AddFirst x => x :: xs | AddLast x => xs ++ [x] end.

End deque.
End Deque.

(** ** The traversals and clients of ghost_cell.rs *)

(** A [GhostCell] carries no runtime brand: its token is a lifetime, so the
    brand check of [ro] and [rw] always passes on code that compiles. *)

Section ghost.
Context {T : Type}.
Implicit Types (h : heap T) (l : loc) (tok : brand).

(** [Node::iter_mut(node, token, f)].  The [impl FnMut(&mut T)] closure
    [f] is a function of its captured state [s] and of the element it is
    handed: [f(&mut node.data)] turns them into [f s (data)], the closure's
    new state and the new element.  The closure cannot reach the cells
    itself ([token] is mutably borrowed by [iter_mut]).  The loop runs for
    at most [fuel] iterations and returns the final heap and the closure's
    final state. *)
Fixpoint iter_mut_loop {St : Type} (fuel : nat) h tok (f : St -> T -> St * T) (s : St)
    (cur : option loc) : outcome (heap T * St) :=
  match cur with
  | None => Finished (h, s)
  | Some l =>
      match fuel with
      | O => OutOfFuel
      | S fuel' =>
          match rw tok l h with
          | inl e => Stuck e
          | inr (n, h1) =>
              let (s', x') := f s (data n) in
              match write tok l (set_data x' n) h1 with
              | inl e => Stuck e
              | inr (_, h2) => iter_mut_loop fuel' h2 tok f s' (next n)
              end
          end
      end
  end.

Definition iter_mut {St : Type} (fuel : nat) h tok (f : St -> T -> St * T) (s : St) (node : loc)
    : outcome (heap T * St) :=
  iter_mut_loop fuel h tok f s (Some node).

(** [Node::iterate(node, token, f)]: the elements [f] is called on, in
    call order. *)
Fixpoint iterate_loop (fuel : nat) h tok (cur : option loc) : outcome (list T) :=
  match cur with
  | None => Finished []
  | Some l =>
      match fuel with
      | O => OutOfFuel
      | S fuel' =>
          match ro h tok l with
          | inl e => Stuck e
          | inr n =>
              match iterate_loop fuel' h tok (next n) with
              | Finished v => Finished (data n :: v)
              | o => o
              end
          end
      end
  end.

Definition iterate (fuel : nat) h tok (node : loc) : outcome (list T) :=
  iterate_loop fuel h tok (Some node).

(** [<Iter as Iterator>::next]: the item and the iterator's next [cur]. *)
Definition iter_next h tok (cur : option loc) : err + option (T * option loc) :=
  match cur with
  | Some l =>
      match ro h tok l with
      | inl e => inl e
      | inr n => inr (Some (data n, next n))
      end
  | None => inr None
  end.

(** [Iterator::collect] over [Iter], calling [next] at most [fuel] times. *)
Fixpoint collect (fuel : nat) h tok (cur : option loc) : outcome (list T) :=
  match fuel with
  | O => OutOfFuel
  | S fuel' =>
      match iter_next h tok cur with
      | inl e => Stuck e
      | inr None => Finished []
      | inr (Some (x, cur')) =>
          match collect fuel' h tok cur' with
          | Finished v => Finished (x :: v)
          | o => o
          end
      end
  end.

(** [Node::view_as_vec(node, token)] of ghost_cell.rs:
    [Node::iter(node, token).collect()]. *)
Definition ghost_view_as_vec (fuel : nat) h tok (node : loc) : outcome (list T) :=
  collect fuel h tok (Some node).

(** [ListWrapper::expose_mut_node]: [self.head.borrow_mut(&mut self.token)]. *)
Definition expose_mut_node tok (head : loc) : M T (Node T) := rw tok head.

End ghost.

(** The closure's states and results along a sequence of elements, the
    first element first: [map_acc f s [x1; ...; xk]] is the final state
    and the list of the new elements. *)
Fixpoint map_acc {St A : Type} (f : St -> A -> St * A) (s : St) (xs : list A) : St * list A :=
  match xs with
  | [] => (s, [])
  | x :: xs' =>
      let (s1, y) := f s x in
      let (s2, ys) := map_acc f s1 xs' in
      (s2, y :: ys)
  end.

(** Failure of [ListWrapper::create]: [iter.next().unwrap()] on no
    element, or a failure of the cell layer. *)
Inductive create_err := UnwrapNone | CellError (e : err).

(** [ListWrapper::create(token, elements)]: the first element is
    unwrapped, the rest are linked by the same loop as [Node::from_iter];
    the wrapper keeps [head] (and the token). *)
Definition create {T} tok (elements : list T) (h : heap T) : create_err + (loc * heap T) :=
  match elements with
  | [] => inl UnwrapNone
  | e :: es =>
      match (head ← node_new tok e; from_iter_loop tok head es;; mret head) h with
      | inl err => inl (CellError err)
      | inr r => inr r
      end
  end.

(** The Rust range [lo..hi] of [i32]s. *)
Definition z_range (lo hi : Z) : list Z :=
  map (fun k => lo + Z.of_nat k)%Z (seq 0 (Z.to_nat (hi - lo))).

(** The [for i in 1..list_size] loop of [init_list]; returns the last tail. *)
Fixpoint init_list_loop tok (tail : loc) (is : list Z) : M Z loc :=
  match is with
  | [] => mret tail
  | i :: is' =>
      node ← node_new tok i;
      insert_next tok tail node;;
      init_list_loop tok node is'
  end.

(** [init_list(token, list_size)]: returns [(head, tail)]. *)
Definition init_list tok (list_size : Z) : M Z (loc * loc) :=
  head ← node_new tok 0%Z;
  tail ← init_list_loop tok head (z_range 1 list_size);
  mret (head, tail).

(** ** Concrete heaps *)

(** A node [1] holding [5] that is its own successor and predecessor, the
    state [insert_next(n, n)] leaves behind. *)
Definition one_node_cycle : heap nat :=
  <[1%positive := Live (Dynamic 0) (mkNode 5 (Some 1%positive) (Some 1%positive))]> ∅.

(** The list [1; 2; 3] as [from_iter] builds it from an empty heap. *)
Definition list123 : heap nat :=
  <[1%positive := Live (Dynamic 0) (mkNode 1 (Some 2%positive) None)]>
  (<[2%positive := Live (Dynamic 0) (mkNode 2 (Some 3%positive) (Some 1%positive))]>
   (<[3%positive := Live (Dynamic 0) (mkNode 3 None (Some 2%positive))]> ∅)).

(** The list [1; 2] of [two_simultaneous_borrows], stamped with the
    [TCellOwner] of the marker type [Brand]. *)
Definition list12_static : heap nat :=
  <[1%positive := Live (Static "Brand") (mkNode 1 (Some 2%positive) None)]>
  (<[2%positive := Live (Static "Brand") (mkNode 2 None (Some 1%positive))]> ∅).

(** A closure counting its calls and adding the count to each element. *)
Definition count_and_add (c : nat) (x : nat) : nat * nat := (S c, x + c).

(** A deque built by [add_first(2)] then [add_first(1)]. *)
Definition deque21 : Deque.Deque nat :=
  Deque.add_first (Deque.add_first Deque.empty 2) 1.

(** ** Auxiliary views used by the proofs *)

(** The invariant stated on the views of the heap. *)
Definition links_inv {T} (h : heap T) : Prop :=
  forall A B, nextof h A = Some B -> is_Some (brand_at h B) /\ prevof h B = Some A.

(** [ls] is a list that ends in [None], stamped with [tok] and holding
    [xs], in that order. *)
Inductive chain {T} (h : heap T) (tok : brand) : list loc -> list T -> Prop :=
| chain_last l x :
    brand_at h l = Some tok -> dataof h l = Some x -> nextof h l = None ->
    chain h tok [l] [x]
| chain_link l l' ls x xs :
    brand_at h l = Some tok -> dataof h l = Some x -> nextof h l = Some l' ->
    chain h tok (l' :: ls) xs -> chain h tok (l :: l' :: ls) (x :: xs).

(** * Proofs *)

(** ** Reasoning about the monad *)

Section monad_facts.
Context {T : Type}.
Implicit Types (h : heap T) (l x : loc) (tok : brand).

Lemma bind_inr {X Y} (m : M T X) (f : X -> M T Y) h y h'' :
  (m ≫= f) h = inr (y, h'') -> exists (v : X) h', m h = inr (v, h') /\ f v h' = inr (y, h'').
Proof.
  unfold mbind, M_bind. destruct (m h) as [e|[v h']]; [discriminate|eauto].
Qed.

Lemma bind_ok {X Y} (m : M T X) (f : X -> M T Y) h (v : X) h' :
  m h = inr (v, h') -> (m ≫= f) h = f v h'.
Proof. unfold mbind, M_bind. intros ->. reflexivity. Qed.

Lemma ret_inr {X} (v : X) h y h' : (mret v : M T X) h = inr (y, h') -> y = v /\ h' = h.
Proof. unfold mret, M_ret. cbn. intros [= -> ->]. auto. Qed.

Lemma rw_inr tok l h n h' :
  rw tok l h = inr (n, h') -> h' = h /\ h !! l = Some (Live tok n).
Proof.
  unfold rw, ro. destruct (h !! l) as [[b n0|]|] eqn:E; try discriminate.
  case_decide; intros Hr; simplify_eq; auto.
Qed.

Lemma write_inr tok l n h u h' :
  write tok l n h = inr (u, h') ->
  exists n0, h !! l = Some (Live tok n0) /\ h' = <[l := Live tok n]> h.
Proof.
  unfold write. destruct (h !! l) as [[b n0|]|]; try discriminate.
  case_decide; [|discriminate]. intros Hr. simplify_eq. eauto.
Qed.

Lemma modify_inr tok l f h u h' :
  modify tok l f h = inr (u, h') ->
  exists n, h !! l = Some (Live tok n) /\ h' = <[l := Live tok (f n)]> h.
Proof.
  unfold modify. intros (n & h1 & Hrw & Hw)%bind_inr.
  apply rw_inr in Hrw as [-> Hl]. apply write_inr in Hw as (n0 & _ & ->).
  eauto.
Qed.

Lemma modify_ok tok l f h n :
  h !! l = Some (Live tok n) ->
  modify tok l f h = inr (tt, <[l := Live tok (f n)]> h).
Proof.
  intros Hl. unfold modify, mbind, M_bind, rw, write, ro. rewrite Hl.
  rewrite decide_True by reflexivity. rewrite Hl, decide_True by reflexivity.
  reflexivity.
Qed.

Lemma take_next_inr tok l h r h' :
  take_next tok l h = inr (r, h') ->
  exists n, h !! l = Some (Live tok n) /\ r = next n /\
            h' = <[l := Live tok (set_next None n)]> h.
Proof.
  unfold take_next. intros (n & h1 & Hrw & Hk)%bind_inr.
  apply rw_inr in Hrw as [-> Hl].
  apply bind_inr in Hk as (u & h2 & Hw & Hr).
  apply write_inr in Hw as (n0 & _ & ->). apply ret_inr in Hr as [-> ->].
  eauto.
Qed.

Lemma take_next_ok tok l h n :
  h !! l = Some (Live tok n) ->
  take_next tok l h = inr (next n, <[l := Live tok (set_next None n)]> h).
Proof.
  intros Hl. unfold take_next, mbind, M_bind, rw, write, ro. rewrite Hl.
  rewrite decide_True by reflexivity. rewrite Hl, decide_True by reflexivity.
  reflexivity.
Qed.

Lemma take_prev_inr tok l h r h' :
  take_prev tok l h = inr (r, h') ->
  exists n, h !! l = Some (Live tok n) /\ r = prev n /\
            h' = <[l := Live tok (set_prev None n)]> h.
Proof.
  unfold take_prev. intros (n & h1 & Hrw & Hk)%bind_inr.
  apply rw_inr in Hrw as [-> Hl].
  apply bind_inr in Hk as (u & h2 & Hw & Hr).
  apply write_inr in Hw as (n0 & _ & ->). apply ret_inr in Hr as [-> ->].
  eauto.
Qed.

Lemma take_prev_ok tok l h n :
  h !! l = Some (Live tok n) ->
  take_prev tok l h = inr (prev n, <[l := Live tok (set_prev None n)]> h).
Proof.
  intros Hl. unfold take_prev, mbind, M_bind, rw, write, ro. rewrite Hl.
  rewrite decide_True by reflexivity. rewrite Hl, decide_True by reflexivity.
  reflexivity.
Qed.

End monad_facts.

(** ** Views through updates *)

Section view_facts.
Context {T : Type}.
Implicit Types (h : heap T) (l x : loc) (s : slot T).

Lemma nextof_insert h l s x :
  nextof (<[l := s]> h) x = if decide (l = x) then slot_next s else nextof h x.
Proof. unfold nextof. rewrite lookup_insert. case_decide; reflexivity. Qed.

Lemma prevof_insert h l s x :
  prevof (<[l := s]> h) x = if decide (l = x) then slot_prev s else prevof h x.
Proof. unfold prevof. rewrite lookup_insert. case_decide; reflexivity. Qed.

Lemma brand_at_insert h l s x :
  brand_at (<[l := s]> h) x = if decide (l = x) then slot_brand s else brand_at h x.
Proof. unfold brand_at. rewrite lookup_insert. case_decide; reflexivity. Qed.

Lemma dataof_insert h l s x :
  dataof (<[l := s]> h) x = if decide (l = x) then slot_data s else dataof h x.
Proof. unfold dataof. rewrite lookup_insert. case_decide; reflexivity. Qed.

Lemma nextof_lookup h x b n : h !! x = Some (Live b n) -> nextof h x = next n.
Proof. unfold nextof. intros ->. reflexivity. Qed.
Lemma prevof_lookup h x b n : h !! x = Some (Live b n) -> prevof h x = prev n.
Proof. unfold prevof. intros ->. reflexivity. Qed.
Lemma brand_at_lookup h x b n : h !! x = Some (Live b n) -> brand_at h x = Some b.
Proof. unfold brand_at. intros ->. reflexivity. Qed.
Lemma dataof_lookup h x b n : h !! x = Some (Live b n) -> dataof h x = Some (data n).
Proof. unfold dataof. intros ->. reflexivity. Qed.

Lemma upgrade_in_brand h w :
  upgrade_in h w = match w with
                   | Some p => match brand_at h p with Some _ => Some p | None => None end
                   | None => None
                   end.
Proof. unfold upgrade_in, brand_at. destruct w as [p|]; [|done]. by destruct (h !! p) as [[]|]. Qed.

Lemma upgrade_in_ext h h' w :
  (forall x, brand_at h' x = brand_at h x) -> upgrade_in h' w = upgrade_in h w.
Proof. intros Hb. rewrite !upgrade_in_brand. destruct w; [|done]. by rewrite Hb. Qed.

Lemma upgrade_in_Some h w p : upgrade_in h w = Some p -> w = Some p /\ is_Some (brand_at h p).
Proof.
  rewrite upgrade_in_brand. destruct w as [q|]; [|discriminate].
  destruct (brand_at h q) eqn:E; [|discriminate]. intros [= ->]. eauto.
Qed.

Lemma nextof_Some_brand h x y : nextof h x = Some y -> is_Some (brand_at h x).
Proof. unfold nextof, brand_at. destruct (h !! x) as [[]|]; simpl; [eauto|discriminate..]. Qed.

End view_facts.

(** Turn a lookup of a live cell into the views of that cell. *)
Ltac views_of H :=
  let E1 := fresh "En" in let E2 := fresh "Ep" in
  let E3 := fresh "Ed" in let E4 := fresh "Eb" in
  pose proof (nextof_lookup _ _ _ _ H) as E1;
  pose proof (prevof_lookup _ _ _ _ H) as E2;
  pose proof (dataof_lookup _ _ _ _ H) as E3;
  pose proof (brand_at_lookup _ _ _ _ H) as E4.

(** Push the views through the updates of a heap. *)
Ltac push_views :=
  repeat first [ rewrite nextof_insert in * | rewrite prevof_insert in *
               | rewrite brand_at_insert in * | rewrite dataof_insert in * ];
  cbn [slot_next slot_prev slot_brand slot_data set_next set_prev set_data
       next prev data] in *.

Ltac decide_all :=
  repeat (case_decide; subst); simplify_eq; try congruence.

Section remove_facts.
Context {T : Type}.
Implicit Types (h : heap T) (l x : loc) (tok : brand).

(** What a completed [remove] does, cell by cell. *)
Lemma remove_inr tok node h u h' :
  remove tok node h = inr (u, h') ->
  let P := upgrade_in h (prevof h node) in
  let W := nextof h node in
  brand_at h node = Some tok /\
  (forall x, brand_at h' x = brand_at h x) /\
  (forall x, dataof h' x = dataof h x) /\
  (forall x, nextof h' x =
     if decide (P = Some x) then W else if decide (x = node) then None else nextof h x) /\
  (forall x, prevof h' x =
     if decide (W = Some x) then P else if decide (x = node) then None else prevof h x).
Proof.
  unfold remove. intros H.
  set (P := upgrade_in h (prevof h node)). set (W := nextof h node).
  apply bind_inr in H as (p & h1 & Hp & H).
  apply take_prev_inr in Hp as (n & Hn & -> & ->).
  apply bind_inr in H as (op & h2 & Hu & H). unfold upgrade in Hu. simplify_eq.
  apply bind_inr in H as (on & h3 & Hn' & H).
  apply take_next_inr in Hn' as (n' & Hn' & -> & ->).
  rewrite lookup_insert_eq in Hn'. simplify_eq.
  views_of Hn.
  assert (HP : upgrade_in (<[node:=Live tok (set_prev None n)]> h) (prev n) = P).
  { unfold P. rewrite <- Ep. apply upgrade_in_ext. intros y. push_views.
    decide_all. }
  rewrite HP in H. clear HP.
  apply bind_inr in H as (u1 & h4 & H1 & H2).
  assert (HW : next n = W) by (unfold W; congruence).
  cbn [next set_prev set_next] in H1, H2. rewrite HW in H1, H2.
  destruct W as [w|] eqn:EW.
  - apply modify_inr in H1 as (nw & Hw & ->).
    views_of Hw. push_views.
    destruct P as [q|] eqn:EP.
    + apply modify_inr in H2 as (nq & Hq & ->).
      views_of Hq. push_views.
      repeat split; try intros x; push_views; decide_all.
    + apply ret_inr in H2 as [-> ->].
      repeat split; try intros x; push_views; decide_all.
  - apply ret_inr in H1 as [-> ->].
    destruct P as [q|] eqn:EP.
    + apply modify_inr in H2 as (nq & Hq & ->).
      views_of Hq. push_views.
      repeat split; try intros x; push_views; decide_all.
    + apply ret_inr in H2 as [-> ->].
      repeat split; try intros x; push_views; decide_all.
Qed.

End remove_facts.

Section success_facts.
Context {T : Type}.
Implicit Types (h : heap T) (l x : loc) (tok : brand).

Lemma brand_at_Some h x b : brand_at h x = Some b -> exists n, h !! x = Some (Live b n).
Proof. unfold brand_at. destruct (h !! x) as [[b' n|]|]; simpl; intros; simplify_eq; eauto. Qed.

Lemma modify_brand tok l (f : Node T -> Node T) h :
  brand_at h l = Some tok ->
  exists h', modify tok l f h = inr (tt, h') /\ forall x, brand_at h' x = brand_at h x.
Proof.
  intros (n & Hl)%brand_at_Some. eexists. split; [by apply modify_ok|].
  intros x. push_views. decide_all. by erewrite brand_at_lookup.
Qed.

(** [remove] completes when the node and the neighbours it touches carry
    the token's brand. *)
Lemma remove_ok tok node h :
  brand_at h node = Some tok ->
  (forall w, nextof h node = Some w -> brand_at h w = Some tok) ->
  (forall p, upgrade_in h (prevof h node) = Some p -> brand_at h p = Some tok) ->
  exists h', remove tok node h = inr (tt, h').
Proof.
  intros Hb HW HP. destruct (brand_at_Some _ _ _ Hb) as [n Hn].
  views_of Hn. unfold remove.
  rewrite (bind_ok _ _ _ _ _ (take_prev_ok _ _ _ _ Hn)).
  set (h1 := <[node := Live tok (set_prev None n)]> h).
  assert (Hb1 : forall x, brand_at h1 x = brand_at h x).
  { intros x. unfold h1. push_views. decide_all. }
  rewrite (bind_ok (upgrade (prev n)) _ h1 (upgrade_in h1 (prev n)) h1) by reflexivity.
  assert (Hn1 : h1 !! node = Some (Live tok (set_prev None n))) by apply lookup_insert_eq.
  rewrite (bind_ok _ _ _ _ _ (take_next_ok _ _ _ _ Hn1)).
  set (h2 := <[node := Live tok (set_next None (set_prev None n))]> h1).
  assert (Hb2 : forall x, brand_at h2 x = brand_at h x).
  { intros x. unfold h2. push_views. decide_all. }
  rewrite (upgrade_in_ext h h1) by exact Hb1.
  cbn [next set_prev set_next]. rewrite <- Ep, <- En.
  destruct (nextof h node) as [w|] eqn:EW.
  - destruct (modify_brand tok w (set_prev (upgrade_in h (prevof h node))) h2)
      as (h3 & Hm & Hb3); [rewrite Hb2; auto|].
    rewrite (bind_ok _ _ _ _ _ Hm).
    destruct (upgrade_in h (prevof h node)) as [p|] eqn:EP; [|eexists; reflexivity].
    destruct (modify_brand tok p (set_next (Some w)) h3) as (h4 & Hm4 & _);
      [rewrite Hb3, Hb2; auto|].
    eauto.
  - rewrite (bind_ok (mret tt) _ h2 tt h2) by reflexivity.
    destruct (upgrade_in h (prevof h node)) as [p|] eqn:EP; [|eexists; reflexivity].
    destruct (modify_brand tok p (set_next None) h2) as (h4 & Hm4 & _);
      [rewrite Hb2; auto|].
    eauto.
Qed.

End success_facts.

Section insert_facts.
Context {T : Type}.
Implicit Types (h : heap T) (l x : loc) (tok : brand).

(** What a completed [insert_next] does: it first removes [node2], then
    splices it after [node1], cell by cell. *)
Lemma insert_next_inr tok node1 node2 h u h' :
  insert_next tok node1 node2 h = inr (u, h') ->
  exists h1, remove tok node2 h = inr (tt, h1) /\
  let S := nextof h1 node1 in
  brand_at h1 node1 = Some tok /\ brand_at h1 node2 = Some tok /\
  (forall x, brand_at h' x = brand_at h1 x) /\
  (forall x, dataof h' x = dataof h1 x) /\
  (forall x, nextof h' x =
     if decide (x = node1) then Some node2
     else if decide (x = node2) then S else nextof h1 x) /\
  (forall x, prevof h' x =
     if decide (x = node2) then Some node1
     else if decide (S = Some x) then Some node2 else prevof h1 x).
Proof.
  unfold insert_next. intros H.
  apply bind_inr in H as ([] & h1 & Hr & H). exists h1. split; [exact Hr|].
  set (S := nextof h1 node1).
  apply bind_inr in H as (o & h2 & Ht & H).
  apply take_next_inr in Ht as (n1 & Hn1 & -> & ->).
  views_of Hn1.
  assert (HS : next n1 = S) by (unfold S; congruence).
  rewrite HS in H.
  apply bind_inr in H as (u1 & h3 & H1 & H).
  apply bind_inr in H as (u2 & h4 & H2 & H3).
  apply modify_inr in H2 as (n2 & Hn2 & ->).
  apply modify_inr in H3 as (n1' & Hn1' & ->).
  destruct S as [s|] eqn:ES.
  - apply modify_inr in H1 as (ns & Hs & ->).
    views_of Hs. views_of Hn2. views_of Hn1'. push_views.
    repeat split; try intros x; push_views; decide_all.
  - apply ret_inr in H1 as [-> ->].
    views_of Hn2. views_of Hn1'. push_views.
    repeat split; try intros x; push_views; decide_all.
Qed.

End insert_facts.

Section insert_ok.
Context {T : Type}.
Implicit Types (h : heap T) (l x : loc) (tok : brand).

(** [insert_next] completes when the [remove] of its first step does and
    the cells it then touches carry the token's brand. *)
Lemma insert_next_ok tok node1 node2 h h1 :
  remove tok node2 h = inr (tt, h1) ->
  brand_at h1 node1 = Some tok -> brand_at h1 node2 = Some tok ->
  (forall s, nextof h1 node1 = Some s -> brand_at h1 s = Some tok) ->
  exists h', insert_next tok node1 node2 h = inr (tt, h').
Proof.
  intros Hr Hb1 Hb2 HS. unfold insert_next.
  rewrite (bind_ok _ _ _ _ _ Hr).
  destruct (brand_at_Some _ _ _ Hb1) as [n1 Hn1]. views_of Hn1.
  rewrite (bind_ok _ _ _ _ _ (take_next_ok _ _ _ _ Hn1)).
  set (h2 := <[node1 := Live tok (set_next None n1)]> h1).
  assert (Hbr2 : forall x, brand_at h2 x = brand_at h1 x).
  { intros x. unfold h2. push_views. decide_all. }
  rewrite <- En.
  assert (Hrest : forall h3, (forall x, brand_at h3 x = brand_at h1 x) ->
    exists h', (modify tok node2 (fun n => set_next (nextof h1 node1) (set_prev (Some node1) n));;
                modify tok node1 (set_next (Some node2))) h3 = inr (tt, h')).
  { intros h3 Hb3.
    destruct (modify_brand tok node2
      (fun n => set_next (nextof h1 node1) (set_prev (Some node1) n)) h3) as (h4 & Hm4 & Hb4);
      [by rewrite Hb3|].
    rewrite (bind_ok _ _ _ _ _ Hm4).
    destruct (modify_brand tok node1 (set_next (Some node2)) h4) as (h5 & Hm5 & _);
      [by rewrite Hb4, Hb3|].
    eauto. }
  destruct (nextof h1 node1) as [s|] eqn:ES.
  - destruct (modify_brand tok s (set_prev (Some node2)) h2) as (h3 & Hm3 & Hb3);
      [rewrite Hbr2; auto|].
    rewrite (bind_ok _ _ _ _ _ Hm3).
    apply Hrest. intros x. by rewrite Hb3, Hbr2.
  - rewrite (bind_ok (mret tt) _ h2 tt h2) by reflexivity.
    apply Hrest. exact Hbr2.
Qed.

End insert_ok.

(** ** The invariant, link by link *)

Section invariant.
Context {T : Type}.
Implicit Types (h : heap T) (l x : loc) (tok : brand).

Lemma list_inv_links h : list_inv h <-> links_inv h.
Proof.
  split.
  - intros Hi A B HAB. unfold nextof in HAB.
    destruct (h !! A) as [[bA nA|]|] eqn:EA; simpl in HAB; try discriminate.
    destruct (Hi A bA nA B EA HAB) as (bB & nB & EB & Hu).
    apply upgrade_in_Some in Hu as [Hp _].
    rewrite (brand_at_lookup _ _ _ _ EB), (prevof_lookup _ _ _ _ EB). eauto.
  - intros Hi A bA nA B EA HAB.
    pose proof (nextof_lookup _ _ _ _ EA) as En. rewrite HAB in En.
    destruct (Hi A B En) as [[bB EbB] Hp].
    destruct (brand_at_Some _ _ _ EbB) as [nB EB].
    exists bB, nB. split; [exact EB|].
    rewrite (prevof_lookup _ _ _ _ EB) in Hp. rewrite Hp, upgrade_in_brand.
    by rewrite (brand_at_lookup _ _ _ _ EA).
Qed.

Lemma remove_links_inv tok n h h' :
  links_inv h -> remove tok n h = inr (tt, h') -> links_inv h'.
Proof.
  intros Hi Hr. apply remove_inr in Hr as (Hbn & Hb & _ & Hn & Hp).
  intros A B HAB. rewrite Hn in HAB. rewrite Hb, Hp.
  destruct (decide (upgrade_in h (prevof h n) = Some A)) as [EP|NP].
  - destruct (Hi n B HAB) as [HB _]. split; [exact HB|].
    by rewrite decide_True.
  - destruct (decide (A = n)) as [->|NA]; [discriminate|].
    destruct (Hi A B HAB) as [HB HBA]. split; [exact HB|].
    destruct (decide (nextof h n = Some B)) as [EW|NW].
    + destruct (Hi n B EW) as [_ HBn]. congruence.
    + destruct (decide (B = n)) as [->|NB]; [|exact HBA].
      exfalso. apply NP. rewrite HBA, upgrade_in_brand.
      destruct (nextof_Some_brand h A n HAB) as [? ->]. reflexivity.
Qed.

(** After the [remove] step of [insert_next], no node but [b] itself
    points to [b]. *)
Lemma remove_unlinked tok b h h1 :
  links_inv h -> remove tok b h = inr (tt, h1) ->
  forall X, nextof h1 X = Some b -> X = b.
Proof.
  intros Hi Hr X HX.
  pose proof (remove_links_inv _ _ _ _ Hi Hr) as Hi1.
  destruct (Hi1 X b HX) as [_ Hp].
  apply remove_inr in Hr as (_ & _ & _ & _ & Hpv).
  rewrite Hpv in Hp.
  destruct (decide (nextof h b = Some b)) as [EW|NW].
  - destruct (Hi b b EW) as [[? Hbb] Hpb]. rewrite Hpb, upgrade_in_brand, Hbb in Hp.
    congruence.
  - rewrite decide_True in Hp by reflexivity. discriminate.
Qed.

Lemma insert_next_links_inv tok a b h h' :
  links_inv h -> insert_next tok a b h = inr (tt, h') -> links_inv h'.
Proof.
  intros Hi Hins.
  apply insert_next_inr in Hins as (h1 & Hr & Hba & Hbb & Hb & _ & Hn & Hp).
  pose proof (remove_links_inv _ _ _ _ Hi Hr) as Hi1.
  pose proof (remove_unlinked _ _ _ _ Hi Hr) as Hun.
  intros A B HAB. rewrite Hn in HAB. rewrite Hb, Hp.
  destruct (decide (A = a)) as [->|NA].
  - simplify_eq. rewrite decide_True by reflexivity. eauto.
  - destruct (decide (A = b)) as [->|NAb].
    + destruct (Hi1 a B HAB) as [HB _]. split; [exact HB|].
      destruct (decide (B = b)) as [->|NB].
      * exfalso. apply NA. symmetry. by apply Hun.
      * by rewrite decide_True.
    + destruct (Hi1 A B HAB) as [HB HBA]. split; [exact HB|].
      destruct (decide (B = b)) as [->|NB].
      * exfalso. apply NAb. by apply Hun.
      * destruct (decide (nextof h1 a = Some B)) as [ES|NS]; [|exact HBA].
        destruct (Hi1 a B ES) as [_ HBa]. congruence.
Qed.

Lemma node_new_links_inv tok (v : T) h l h' :
  links_inv h -> node_new tok v h = inr (l, h') -> links_inv h'.
Proof.
  intros Hi Hnew. unfold node_new in Hnew. simplify_eq.
  set (l := fresh (dom h)).
  assert (Hl : h !! l = None).
  { apply not_elem_of_dom. apply is_fresh. }
  intros A B HAB. push_views.
  destruct (decide (l = A)) as [->|NA]; [discriminate|].
  destruct (Hi A B HAB) as [[b HB] HBA].
  destruct (decide (l = B)) as [->|NB].
  - unfold brand_at in HB. rewrite Hl in HB. discriminate.
  - eauto.
Qed.

Lemma release_links_inv h l b n :
  links_inv h -> h !! l = Some (Live b n) -> (forall x, ~ owns h x l) ->
  links_inv (<[l := Dropped]> h).
Proof.
  intros Hi Hl Hno A B HAB. push_views.
  destruct (decide (l = A)) as [->|NA]; [discriminate|].
  destruct (Hi A B HAB) as [HB HBA].
  destruct (decide (l = B)) as [->|NB].
  - exfalso. apply (Hno A). unfold nextof in HAB.
    destruct (h !! A) as [[bA nA|]|] eqn:EA; simpl in HAB; try discriminate.
    exists bA, nA. auto.
  - auto.
Qed.

Lemma step_links_inv h h' : links_inv h -> step h h' -> links_inv h'.
Proof.
  intros Hi Hs. destruct Hs as [tok v h l h' Hn | tok n h h' Hr | tok a b h h' Hr | h l b n Hl Hno].
  - eapply node_new_links_inv; eauto.
  - eapply remove_links_inv; eauto.
  - eapply insert_next_links_inv; eauto.
  - eapply release_links_inv; eauto.
Qed.

End invariant.

(** ** Building a list: [from_iter] *)

Section build.
Context {T : Type}.
Implicit Types (h : heap T) (l x : loc) (tok : brand).

Lemma ro_views h tok l :
  brand_at h l = Some tok ->
  exists n, ro h tok l = inr n /\ dataof h l = Some (data n) /\ nextof h l = next n.
Proof.
  intros (n & Hl)%brand_at_Some. exists n. unfold ro. rewrite Hl, decide_True by done.
  split; [done|]. split; [by eapply dataof_lookup | by eapply nextof_lookup].
Qed.

Lemma view_as_vec_None fuel h tok : view_as_vec fuel h tok None = Finished [].
Proof. by destruct fuel. Qed.

Lemma chain_view h tok ls xs :
  chain h tok ls xs ->
  forall hd fuel, head ls = Some hd -> length xs <= fuel ->
  view_as_vec fuel h tok (Some hd) = Finished xs.
Proof.
  induction 1 as [l v Hb Hd Hn | l l' ls v xs Hb Hd Hn Hc IH];
    intros hd fuel Hhd Hf; simpl in Hhd; simplify_eq;
    (destruct fuel as [|fuel]; [simpl in Hf; lia|]);
    destruct (ro_views _ _ _ Hb) as (n & Hro & Hdn & Hnn); simpl; rewrite Hro;
    rewrite <- Hnn.
  - rewrite Hn, view_as_vec_None. congruence.
  - rewrite Hn, (IH l' fuel) by (simpl in *; auto with lia). congruence.
Qed.

Lemma chain_last_next h tok ls xs t :
  chain h tok ls xs -> last ls = Some t -> nextof h t = None.
Proof.
  induction 1 as [l v Hb Hd Hn | l l' ls v xs Hb Hd Hn Hc IH]; intros Hlast.
  - simpl in Hlast. congruence.
  - apply IH. exact Hlast.
Qed.

Lemma chain_nonempty h tok ls xs : chain h tok ls xs -> ls <> [].
Proof. by destruct 1. Qed.

Lemma chain_extend h h' tok ls xs t new (v : T) :
  chain h tok ls xs -> last ls = Some t -> brand_at h new = None ->
  (forall x, x <> new -> brand_at h' x = brand_at h x) ->
  (forall x, x <> new -> dataof h' x = dataof h x) ->
  (forall x, x <> new -> x <> t -> nextof h' x = nextof h x) ->
  nextof h' t = Some new ->
  brand_at h' new = Some tok -> dataof h' new = Some v -> nextof h' new = None ->
  chain h' tok (ls ++ [new]) (xs ++ [v]).
Proof.
  intros Hc Hlast Hfresh Hb Hd Hn Ht Hbn Hdn Hnn.
  revert t Hlast Ht Hn.
  induction Hc as [l x Hbl Hdl Hnl | l l' ls x xs Hbl Hdl Hnl Hc IH];
    intros t Hlast Ht Hn.
  - simpl in Hlast. simplify_eq. assert (t <> new) by congruence.
    simpl. apply chain_link; [by rewrite Hb | by rewrite Hd | done |].
    by apply chain_last.
  - assert (l <> new) by congruence.
    assert (l <> t).
    { intros ->. rewrite (chain_last_next _ _ _ _ _ Hc Hlast) in *. discriminate. }
    simpl. apply chain_link; [by rewrite Hb | by rewrite Hd | by rewrite Hn |].
    apply (IH t Hlast Ht Hn).
Qed.

Lemma node_new_inr tok (v : T) h l h' :
  node_new tok v h = inr (l, h') ->
  brand_at h l = None /\ h' = <[l := Live tok (mkNode v None None)]> h.
Proof.
  unfold node_new. intros Hn. simplify_eq. split; [|done].
  unfold brand_at. rewrite (not_elem_of_dom_1 h (fresh (dom h))) by apply is_fresh.
  done.
Qed.

(** One iteration of the loop of [from_iter]: linking a detached node
    after the tail. *)
Lemma insert_next_after_tail tok t new h :
  brand_at h t = Some tok -> brand_at h new = Some tok -> t <> new ->
  nextof h t = None -> nextof h new = None -> prevof h new = None ->
  exists h', insert_next tok t new h = inr (tt, h') /\
    (forall x, brand_at h' x = brand_at h x) /\
    (forall x, dataof h' x = dataof h x) /\
    (forall x, nextof h' x =
       if decide (x = t) then Some new else nextof h x).
Proof.
  intros Hbt Hbn Htn Hnt Hnn Hpn.
  destruct (remove_ok tok new h Hbn) as [h1 Hr].
  { rewrite Hnn. discriminate. }
  { rewrite Hpn. discriminate. }
  pose proof Hr as (_ & Hb1 & Hd1 & Hn1 & _)%remove_inr.
  rewrite Hpn, Hnn in Hn1. simpl in Hn1.
  assert (Hn1' : forall x, nextof h1 x = nextof h x).
  { intros x. rewrite Hn1. decide_all. }
  destruct (insert_next_ok tok t new h h1 Hr) as [h' Hi];
    [by rewrite Hb1 | by rewrite Hb1 | rewrite Hn1', Hnt; discriminate |].
  exists h'. split; [exact Hi|].
  apply insert_next_inr in Hi as (h1' & Hr' & _ & _ & Hb & Hd & Hn & _).
  rewrite Hr in Hr'. simplify_eq.
  split; [intros x; by rewrite Hb, Hb1|].
  split; [intros x; by rewrite Hd, Hd1|].
  intros x. rewrite Hn, !Hn1', Hnt. decide_all.
Qed.

Lemma from_iter_loop_chain tok es : forall h ls xs t,
  chain h tok ls xs -> last ls = Some t ->
  exists h' ls', from_iter_loop tok t es h = inr (tt, h') /\
    chain h' tok ls' (xs ++ es) /\ head ls' = head ls.
Proof.
  induction es as [|e es IH]; intros h ls xs t Hc Hlast.
  - exists h, ls. rewrite app_nil_r. done.
  - simpl.
    set (l := fresh (dom h)).
    assert (Hnew : node_new tok e h = inr (l, <[l := Live tok (mkNode e None None)]> h))
      by reflexivity.
    rewrite (bind_ok _ _ _ _ _ Hnew).
    set (h1 := <[l := Live tok (mkNode e None None)]> h).
    destruct (node_new_inr _ _ _ _ _ Hnew) as [Hfresh _].
    pose proof (chain_last_next _ _ _ _ _ Hc Hlast) as Hnt.
    assert (Hbt : brand_at h t = Some tok).
    { clear -Hc Hlast. induction Hc; simpl in *; [congruence | auto]. }
    assert (Htl : t <> l) by congruence.
    destruct (insert_next_after_tail tok t l h1) as (h2 & Hi & Hb2 & Hd2 & Hn2);
      try (unfold h1; push_views; decide_all).
    rewrite (bind_ok _ _ _ _ _ Hi).
    assert (Hc2 : chain h2 tok (ls ++ [l]) (xs ++ [e])).
    { eapply chain_extend; [exact Hc | exact Hlast | exact Hfresh | ..];
        intros; rewrite ?Hb2, ?Hd2, ?Hn2; unfold h1; push_views; decide_all. }
    destruct (IH h2 (ls ++ [l]) (xs ++ [e]) l Hc2) as (h3 & ls3 & Hl3 & Hc3 & Hh3).
    { by rewrite last_app. }
    exists h3, ls3. split; [exact Hl3|]. rewrite <- app_assoc in Hc3.
    split; [exact Hc3|]. rewrite Hh3.
    destruct ls; [by apply chain_nonempty in Hc|]. done.
Qed.

Lemma from_iter_chain tok (v : T) (es : list T) h :
  exists hd h' ls, from_iter tok (v :: es) h = inr (Some hd, h') /\
    chain h' tok ls (v :: es) /\ head ls = Some hd.
Proof.
  simpl. set (hd := fresh (dom h)).
  assert (Hnew : node_new tok v h = inr (hd, <[hd := Live tok (mkNode v None None)]> h))
    by reflexivity.
  rewrite (bind_ok _ _ _ _ _ Hnew).
  assert (Hc : chain (<[hd := Live tok (mkNode v None None)]> h) tok [hd] [v]).
  { apply chain_last; push_views; decide_all. }
  destruct (from_iter_loop_chain tok es _ [hd] [v] hd Hc eq_refl)
    as (h' & ls & Hl & Hc' & Hh).
  exists hd, h', ls. rewrite (bind_ok _ _ _ _ _ Hl). split; [reflexivity|].
  split; [exact Hc'|exact Hh].
Qed.

End build.

(** ** Shared facts for the claims *)

Section shared.
Context {T : Type}.
Implicit Types (h : heap T) (l x : loc) (tok : brand).

Lemma rtc_links_inv h h' : links_inv h -> rtc step h h' -> links_inv h'.
Proof.
  intros Hi Hs. revert Hi.
  induction Hs as [|x y z Hxy Hyz IH]; intros Hi; [done|].
  apply IH. eapply step_links_inv; eauto.
Qed.

Lemma owned_brand h tok x : owned_by h tok -> is_Some (brand_at h x) -> brand_at h x = Some tok.
Proof.
  intros Ho [b Hb]. destruct (brand_at_Some _ _ _ Hb) as [n Hn].
  rewrite Hb. f_equal. eapply Ho; eauto.
Qed.

Lemma owned_by_ext h h' tok :
  owned_by h tok -> (forall x, brand_at h' x = brand_at h x) -> owned_by h' tok.
Proof.
  intros Ho Hb x b n Hx. pose proof (brand_at_lookup _ _ _ _ Hx) as E.
  rewrite Hb in E. destruct (brand_at_Some _ _ _ E) as [n' Hn']. eauto.
Qed.

(** [remove] completes on any live node of an owned heap in steady state. *)
Lemma remove_ok_inv tok n h :
  links_inv h -> owned_by h tok -> is_Some (brand_at h n) ->
  exists h', remove tok n h = inr (tt, h').
Proof.
  intros Hi Ho Hn. apply remove_ok.
  - by apply owned_brand.
  - intros w Hw. apply owned_brand; [done|]. by destruct (Hi n w Hw).
  - intros p Hp. apply owned_brand; [done|]. by apply upgrade_in_Some in Hp as [_ ?].
Qed.

(** [insert_next] completes on any two live nodes of an owned heap in
    steady state. *)
Lemma insert_next_ok_inv tok a b h :
  links_inv h -> owned_by h tok -> is_Some (brand_at h a) -> is_Some (brand_at h b) ->
  exists h1 h', remove tok b h = inr (tt, h1) /\ insert_next tok a b h = inr (tt, h').
Proof.
  intros Hi Ho Ha Hb.
  destruct (remove_ok_inv tok b h Hi Ho Hb) as [h1 Hr].
  pose proof Hr as (_ & Hb1 & _)%remove_inr.
  pose proof (remove_links_inv _ _ _ _ Hi Hr) as Hi1.
  assert (Ho1 : owned_by h1 tok) by (eapply owned_by_ext; eauto).
  destruct (insert_next_ok tok a b h h1 Hr) as [h' Hins].
  - apply owned_brand; [done|]. by rewrite Hb1.
  - apply owned_brand; [done|]. by rewrite Hb1.
  - intros s Hs. apply owned_brand; [done|]. by destruct (Hi1 a s Hs).
  - eauto.
Qed.

End shared.

(** Close goals about the lookups of a heap written as a chain of inserts. *)
Ltac lookup_cases H :=
  rewrite ?lookup_insert, ?lookup_empty in H; repeat (case_decide; subst); simplify_eq.



Lemma deque21_mutual :
  Deque.head deque21 = Some 2%positive /\
  Deque.owns deque21 2%positive 1%positive /\ Deque.owns deque21 1%positive 2%positive.
Proof.
  vm_compute. split; [done|]. split; eexists; (split; [reflexivity|]); auto.
Qed.

(** * The claims *)

(** C1: the steady-state list invariant (for adjacent nodes A before B,
    [A.next] resolves to B and upgrading [B.prev] yields A) holds after
    every interleaving of node creations, [remove] and [insert_next] calls
    and node destructions, starting from a state where it holds. *)
Theorem steady_state_invariant {T} (h h' : heap T) :
  list_inv h -> rtc step h h' -> list_inv h'.
Proof. rewrite !list_inv_links. apply rtc_links_inv. Qed.

Lemma steady_state_invariant_witness :
  list_inv (∅ : heap nat) /\
  rtc step ∅ (<[1%positive := Live (Dynamic 0) (mkNode 1 (Some 3%positive) None)]>
              (<[2%positive := Live (Dynamic 0) (mkNode 2 None (Some 3%positive))]>
               (<[3%positive := Live (Dynamic 0) (mkNode 3 (Some 2%positive) (Some 1%positive))]>
                ∅))) /\
  list_inv (<[1%positive := Live (Dynamic 0) (mkNode 1 (Some 3%positive) None)]>
            (<[2%positive := Live (Dynamic 0) (mkNode 2 None (Some 3%positive))]>
             (<[3%positive := Live (Dynamic 0) (mkNode 3 (Some 2%positive) (Some 1%positive))]>
              ∅))).
Proof.
  assert (H0 : list_inv (∅ : heap nat)).
  { intros A bA nA B HA. rewrite lookup_empty in HA. discriminate. }
  assert (Hs : rtc step ∅
    (<[1%positive := Live (Dynamic 0) (mkNode 1 (Some 3%positive) None)]>
     (<[2%positive := Live (Dynamic 0) (mkNode 2 None (Some 3%positive))]>
      (<[3%positive := Live (Dynamic 0) (mkNode 3 (Some 2%positive) (Some 1%positive))]>
       (∅ : heap nat))))).
  { eapply rtc_l; [eapply (step_new (Dynamic 0) 1); reflexivity|].
    eapply rtc_l; [eapply (step_new (Dynamic 0) 2); reflexivity|].
    eapply rtc_l; [eapply (step_insert_next (Dynamic 0) 1%positive 2%positive); reflexivity|].
    eapply rtc_l; [eapply (step_new (Dynamic 0) 3); reflexivity|].
    eapply rtc_l; [eapply (step_insert_next (Dynamic 0) 2%positive 3%positive); reflexivity|].
    eapply rtc_l; [eapply (step_remove (Dynamic 0) 2%positive); reflexivity|].
    eapply rtc_l; [eapply (step_insert_next (Dynamic 0) 3%positive 2%positive); vm_compute; reflexivity|].
    apply rtc_refl. }
  split; [exact H0|]. split; [exact Hs|].
  exact (steady_state_invariant _ _ H0 Hs).
Defined.

Lemma list123_from_iter : from_iter (Dynamic 0) [1; 2; 3] ∅ = inr (Some 1%positive, list123).
Proof. vm_compute. reflexivity. Qed.

Lemma list123_inv : list_inv list123.
Proof.
  intros A bA nA B EA HB. unfold list123 in EA. lookup_cases EA; simpl in HB; simplify_eq;
    eexists _, _; split; reflexivity.
Qed.

Lemma list123_owned : owned_by list123 (Dynamic 0).
Proof. intros x b n Hx. unfold list123 in Hx. by lookup_cases Hx. Qed.

(** C10: in steady state, [insert_next(n, n)] on any live node [n] of the
    token's brand succeeds and leaves a one-node cycle: [n.next] is [n],
    [n.prev] upgrades to [n], and [view_as_vec] from [n] never reaches
    [None] (it runs out of any fuel). *)
Theorem insert_next_self {T} tok n (h : heap T) :
  links_inv h -> owned_by h tok -> is_Some (brand_at h n) ->
  exists h', insert_next tok n n h = inr (tt, h') /\
    nextof h' n = Some n /\ upgrade_in h' (prevof h' n) = Some n /\
    forall fuel, view_as_vec fuel h' tok (Some n) = OutOfFuel.
Proof.
  intros Hi Ho Hn.
  destruct (insert_next_ok_inv tok n n h Hi Ho Hn Hn) as (h1 & h' & Hr & Hins).
  exists h'. split; [exact Hins|].
  pose proof Hr as (_ & Hb1 & _)%remove_inr.
  apply insert_next_inr in Hins as (h1' & Hr' & _ & Hbn & Hb & _ & Hnx & Hpv).
  rewrite Hr in Hr'. simplify_eq.
  assert (Hnn : nextof h' n = Some n) by (rewrite Hnx; decide_all).
  split; [exact Hnn|]. split.
  - rewrite Hpv, decide_True by done. rewrite upgrade_in_brand, Hb, Hbn. done.
  - intros fuel. induction fuel as [|fuel IH]; [done|].
    destruct (ro_views h' tok n) as (nn & Hro & _ & Hnext); [by rewrite Hb|].
    simpl. rewrite Hro, <- Hnext, Hnn, IH. done.
Qed.

Lemma insert_next_self_witness :
  links_inv list123 /\ owned_by list123 (Dynamic 0) /\ is_Some (brand_at list123 2%positive) /\
  exists h', insert_next (Dynamic 0) 2%positive 2%positive list123 = inr (tt, h') /\
    nextof h' 2%positive = Some 2%positive /\
    upgrade_in h' (prevof h' 2%positive) = Some 2%positive /\
    forall fuel, view_as_vec fuel h' (Dynamic 0) (Some 2%positive) = OutOfFuel.
Proof.
  assert (Hl : links_inv list123) by (apply list_inv_links; exact list123_inv).
  assert (Hb : is_Some (brand_at list123 2%positive)) by (vm_compute; eauto).
  split; [exact Hl|]. split; [exact list123_owned|]. split; [exact Hb|].
  exact (insert_next_self (Dynamic 0) 2%positive list123 Hl list123_owned Hb).
Defined.

(** C2 (code bug): [remove] is documented to leave [next] and [prev] of
    the node as [None], and it rewires predecessor and successor as the
    claim says; but on a node that is its own neighbour (the one-node
    cycle [insert_next(n, n)] creates) the rewiring writes the node's own
    links back, so it stays linked to itself. *)
Theorem remove_one_node_cycle :
  insert_next (Dynamic 0) 1%positive 1%positive
    (<[1%positive := Live (Dynamic 0) (mkNode 5 None None)]> ∅) = inr (tt, one_node_cycle) /\
  remove (Dynamic 0) 1%positive one_node_cycle = inr (tt, one_node_cycle) /\
  nextof one_node_cycle 1%positive = Some 1%positive /\
  upgrade_in one_node_cycle (prevof one_node_cycle 1%positive) = Some 1%positive.
Proof. vm_compute. repeat split. Qed.

(** C3: building a list from a sequence and traversing it from its head
    returns the sequence: [from_iter] then [view_as_vec] yields exactly
    the elements, in order (the traversal ends after [length xs] steps),
    from any heap; [[a; b; c]] is an instance. *)
Theorem from_iter_view_as_vec {T} tok (xs : list T) (h : heap T) :
  exists hd h', from_iter tok xs h = inr (hd, h') /\
    view_as_vec (length xs) h' tok hd = Finished xs.
Proof.
  destruct xs as [|v vs].
  - exists None, h. done.
  - destruct (from_iter_chain tok v vs h) as (hd & h' & ls & Hf & Hc & Hhd).
    exists (Some hd), h'. split; [exact Hf|].
    eapply chain_view; eauto.
Qed.

(** C4: in steady state, [insert_next(A, B)] with [B <> A] and [B] linked
    between [X] and [Y] first leaves [X] and [Y] linked to each other
    (its [remove] step), then splices [B] right after [A]: [A.next] is [B],
    [B.prev] upgrades to [A], [B.next] is [A]'s successor after that first
    step, and that successor's [prev] upgrades to [B]. *)
Theorem insert_next_moves {T} tok (h : heap T) A B X Y :
  list_inv h -> owned_by h tok -> is_Some (brand_at h A) -> A <> B ->
  nextof h X = Some B -> nextof h B = Some Y ->
  exists h1 h2,
    remove tok B h = inr (tt, h1) /\
    nextof h1 X = Some Y /\ upgrade_in h1 (prevof h1 Y) = Some X /\
    insert_next tok A B h = inr (tt, h2) /\
    nextof h2 A = Some B /\ upgrade_in h2 (prevof h2 B) = Some A /\
    nextof h2 B = nextof h1 A /\
    (forall S, nextof h1 A = Some S -> upgrade_in h2 (prevof h2 S) = Some B).
Proof.
  rewrite list_inv_links. intros Hi Ho HA HAB HX HB.
  destruct (Hi X B HX) as [HBl HBX].
  destruct (insert_next_ok_inv tok A B h Hi Ho HA HBl) as (h1 & h2 & Hr & Hins).
  exists h1, h2.
  pose proof Hr as (_ & Hb1 & _ & Hn1 & Hp1)%remove_inr.
  pose proof (remove_unlinked _ _ _ _ Hi Hr) as Hun.
  assert (HP : upgrade_in h (prevof h B) = Some X).
  { rewrite HBX, upgrade_in_brand. by destruct (nextof_Some_brand h X B HX) as [? ->]. }
  apply insert_next_inr in Hins as Hins'.
  destruct Hins' as (h1' & Hr' & _ & _ & Hb2 & _ & Hn2 & Hp2).
  rewrite Hr in Hr'. simplify_eq.
  split; [exact Hr|].
  split; [rewrite Hn1, HP, decide_True by done; exact HB|].
  split.
  { rewrite Hp1, HB, decide_True by done. rewrite HP, upgrade_in_brand, Hb1.
    by destruct (nextof_Some_brand h X B HX) as [? ->]. }
  split; [exact Hins|].
  split; [rewrite Hn2, decide_True by done; done|].
  split.
  { rewrite Hp2, decide_True by done. rewrite upgrade_in_brand, Hb2, Hb1.
    by destruct HA as [? ->]. }
  split; [rewrite Hn2, decide_False, decide_True by done; done|].
  intros S HS. assert (S <> B) by (intros ->; apply HAB, Hun, HS).
  rewrite Hp2, decide_False, decide_True by done.
  rewrite upgrade_in_brand, Hb2, Hb1. by destruct HBl as [? ->].
Qed.

Lemma insert_next_moves_witness :
  list_inv list123 /\ owned_by list123 (Dynamic 0) /\
  is_Some (brand_at list123 3%positive) /\ 3%positive <> 2%positive /\
  nextof list123 1%positive = Some 2%positive /\ nextof list123 2%positive = Some 3%positive /\
  exists h1 h2,
    remove (Dynamic 0) 2%positive list123 = inr (tt, h1) /\
    nextof h1 1%positive = Some 3%positive /\ upgrade_in h1 (prevof h1 3%positive) = Some 1%positive /\
    insert_next (Dynamic 0) 3%positive 2%positive list123 = inr (tt, h2) /\
    nextof h2 3%positive = Some 2%positive /\ upgrade_in h2 (prevof h2 2%positive) = Some 3%positive /\
    nextof h2 2%positive = nextof h1 3%positive /\
    (forall S, nextof h1 3%positive = Some S -> upgrade_in h2 (prevof h2 S) = Some 2%positive).
Proof.
  assert (HA : is_Some (brand_at list123 3%positive)) by (vm_compute; eauto).
  assert (HAB : 3%positive <> 2%positive) by lia.
  assert (HX : nextof list123 1%positive = Some 2%positive) by reflexivity.
  assert (HB : nextof list123 2%positive = Some 3%positive) by reflexivity.
  split; [exact list123_inv|]. split; [exact list123_owned|].
  do 4 (split; [assumption|]).
  exact (insert_next_moves (Dynamic 0) list123 3%positive 2%positive 1%positive 3%positive
           list123_inv list123_owned HA HAB HX HB).
Defined.

(** C5 (code bug): a second [remove] on the same node is meant to leave
    it detached; on a node that is its own neighbour both calls leave the
    heap unchanged, so the node stays linked to itself ([next] and [prev]
    both point back to it). *)
Theorem remove_twice_one_node_cycle :
  (remove (Dynamic 0) 1%positive ;; remove (Dynamic 0) 1%positive) one_node_cycle
    = inr (tt, one_node_cycle) /\
  nextof one_node_cycle 1%positive = Some 1%positive /\
  prevof one_node_cycle 1%positive = Some 1%positive.
Proof. vm_compute. repeat split. Qed.

(** C6 (counterexample): the deque of cell_family.rs keeps its backward
    link [previous] as a strong [Rc]: after [add_first(2)], [add_first(1)]
    the head node holds [1] with [next] the node of [2], whose [previous]
    points back to the head, so the two adjacent nodes own each other. *)
Theorem deque_previous_is_strong :
  Deque.head deque21 = Some 2%positive /\
  Deque.cells deque21 !! 2%positive = Some (Deque.mkDNode 1 (Some 1%positive) None) /\
  Deque.cells deque21 !! 1%positive = Some (Deque.mkDNode 2 None (Some 2%positive)).
Proof. vm_compute. repeat split. Qed.

(** C6 (amended): in the [Node] of qcell.rs, tcell.rs and ghost_cell.rs
    [prev] is a [Weak]: a node [A] whose only incoming pointer is its
    successor [B]'s [prev] can be destroyed; [B.prev] still names [A] but
    upgrading it then yields [None], and [remove(B)] treats that as no
    predecessor (it detaches [B] and clears its successor's [prev]).  The
    deque of cell_family.rs is the exception: its [previous] is a strong
    [Rc], so adjacent deque nodes own each other. *)
Theorem prev_is_weak {T} tok (h : heap T) A B :
  list_inv h -> owned_by h tok -> nextof h A = Some B -> (forall x, ~ owns h x A) ->
  step h (<[A := Dropped]> h) /\
  prevof (<[A := Dropped]> h) B = Some A /\
  upgrade_in (<[A := Dropped]> h) (prevof (<[A := Dropped]> h) B) = None /\
  (exists h1, remove tok B (<[A := Dropped]> h) = inr (tt, h1) /\
     nextof h1 B = None /\ prevof h1 B = None /\
     forall C, nextof h B = Some C -> prevof h1 C = None) /\
  (Deque.head deque21 = Some 2%positive /\
   Deque.owns deque21 2%positive 1%positive /\ Deque.owns deque21 1%positive 2%positive).
Proof.
  rewrite list_inv_links. intros Hi Ho HAB Hno.
  destruct (nextof_Some_brand _ _ _ HAB) as [bA HbA].
  destruct (brand_at_Some _ _ _ HbA) as [nA HA].
  destruct (Hi A B HAB) as [HB HBA].
  assert (NAB : A <> B).
  { intros <-. apply (Hno A). exists bA, nA. split; [done|].
    erewrite <- nextof_lookup by exact HA. done. }
  set (h0 := <[A := Dropped]> h).
  assert (Hp0 : prevof h0 B = Some A).
  { unfold h0. rewrite prevof_insert, decide_False by done. done. }
  assert (Hu0 : upgrade_in h0 (prevof h0 B) = None).
  { rewrite Hp0, upgrade_in_brand. unfold h0. rewrite brand_at_insert, decide_True by done.
    done. }
  assert (Hi0 : links_inv h0) by (eapply release_links_inv; eauto).
  assert (Ho0 : owned_by h0 tok).
  { intros x b n Hx. unfold h0 in Hx. rewrite lookup_insert in Hx.
    case_decide; simplify_eq. eauto. }
  assert (HB0 : is_Some (brand_at h0 B)).
  { unfold h0. rewrite brand_at_insert, decide_False by done. done. }
  destruct (remove_ok_inv tok B h0 Hi0 Ho0 HB0) as [h1 Hr].
  split; [eapply step_release; eauto|].
  split; [exact Hp0|]. split; [exact Hu0|].
  split; [|exact deque21_mutual].
  exists h1. split; [exact Hr|].
  apply remove_inr in Hr as (_ & _ & _ & Hn & Hp).
  rewrite Hu0 in Hn, Hp.
  split; [rewrite Hn; repeat case_decide; congruence|].
  split; [rewrite Hp; repeat case_decide; congruence|].
  intros C HC. rewrite Hp, decide_True; [done|].
  unfold h0. rewrite nextof_insert, decide_False by done. exact HC.
Qed.

Lemma prev_is_weak_witness :
  list_inv list123 /\ owned_by list123 (Dynamic 0) /\
  nextof list123 1%positive = Some 2%positive /\ (forall x, ~ owns list123 x 1%positive) /\
  step list123 (<[1%positive := Dropped]> list123) /\
  prevof (<[1%positive := Dropped]> list123) 2%positive = Some 1%positive /\
  upgrade_in (<[1%positive := Dropped]> list123)
    (prevof (<[1%positive := Dropped]> list123) 2%positive) = None /\
  (exists h1, remove (Dynamic 0) 2%positive (<[1%positive := Dropped]> list123) = inr (tt, h1) /\
     nextof h1 2%positive = None /\ prevof h1 2%positive = None /\
     forall C, nextof list123 2%positive = Some C -> prevof h1 C = None) /\
  (Deque.head deque21 = Some 2%positive /\
   Deque.owns deque21 2%positive 1%positive /\ Deque.owns deque21 1%positive 2%positive).
Proof.
  assert (HAB : nextof list123 1%positive = Some 2%positive) by reflexivity.
  assert (Hno : forall x, ~ owns list123 x 1%positive).
  { intros x (b & n & Hx & Hn). unfold list123 in Hx. lookup_cases Hx; discriminate. }
  split; [exact list123_inv|]. split; [exact list123_owned|].
  split; [exact HAB|]. split; [exact Hno|].
  exact (prev_is_weak (Dynamic 0) list123 1%positive 2%positive
           list123_inv list123_owned HAB Hno).
Defined.

(** C7: [rw2] on two handles to the same cell fails with
    [AliasViolation]; on two distinct cells of the token's brand it
    succeeds, and the update made through each view is what a later [ro]
    with the same token returns for that cell. *)
Theorem rw2_alias_distinct {T} tok (h : heap T) c1 c2 (f1 f2 : Node T -> Node T) :
  (c1 = c2 -> rw2 tok c1 c2 f1 f2 h = inl AliasViolation) /\
  (c1 <> c2 -> brand_at h c1 = Some tok -> brand_at h c2 = Some tok ->
   exists n1 n2 h', ro h tok c1 = inr n1 /\ ro h tok c2 = inr n2 /\
     rw2 tok c1 c2 f1 f2 h = inr (tt, h') /\
     ro h' tok c1 = inr (f1 n1) /\ ro h' tok c2 = inr (f2 n2)).
Proof.
  split.
  - intros ->. unfold rw2. rewrite decide_True by done. reflexivity.
  - intros Hne (n1 & H1)%brand_at_Some (n2 & H2)%brand_at_Some.
    set (h1 := <[c1 := Live tok (f1 n1)]> h).
    assert (H2' : h1 !! c2 = Some (Live tok n2)).
    { unfold h1. rewrite lookup_insert, decide_False by done. exact H2. }
    exists n1, n2, (<[c2 := Live tok (f2 n2)]> h1).
    unfold ro. rewrite H1, H2, !decide_True by done.
    split; [done|]. split; [done|]. split.
    { unfold rw2. rewrite decide_False by done.
      rewrite (bind_ok _ _ _ _ _ (modify_ok tok c1 f1 h n1 H1)).
      exact (modify_ok tok c2 f2 h1 n2 H2'). }
    unfold h1. split; rewrite !lookup_insert; repeat (case_decide; try congruence).
Qed.

Lemma rw2_alias_distinct_witness :
  rw2 (Static "Brand") 1%positive 1%positive (set_data 61) (set_data 62) list12_static
    = inl AliasViolation /\
  1%positive <> 2%positive /\
  brand_at list12_static 1%positive = Some (Static "Brand") /\
  brand_at list12_static 2%positive = Some (Static "Brand") /\
  exists n1 n2 h', ro list12_static (Static "Brand") 1%positive = inr n1 /\
    ro list12_static (Static "Brand") 2%positive = inr n2 /\
    rw2 (Static "Brand") 1%positive 2%positive (set_data 61) (set_data 62) list12_static
      = inr (tt, h') /\
    ro h' (Static "Brand") 1%positive = inr (set_data 61 n1) /\
    ro h' (Static "Brand") 2%positive = inr (set_data 62 n2).
Proof.
  assert (Hne : 1%positive <> 2%positive) by lia.
  assert (Hb1 : brand_at list12_static 1%positive = Some (Static "Brand")) by reflexivity.
  assert (Hb2 : brand_at list12_static 2%positive = Some (Static "Brand")) by reflexivity.
  split.
  { apply (proj1 (rw2_alias_distinct (Static "Brand") list12_static 1%positive 1%positive
                    (set_data 61) (set_data 62))). reflexivity. }
  split; [exact Hne|]. split; [exact Hb1|]. split; [exact Hb2|].
  exact (proj2 (rw2_alias_distinct (Static "Brand") list12_static 1%positive 2%positive
                  (set_data 61) (set_data 62)) Hne Hb1 Hb2).
Defined.

(** C8: [TCellOwner::new] for a marker type that already has a live
    owner fails with [DuplicateOwner]; for a marker with no live owner it
    succeeds, and a second construction after it fails. *)
Theorem tcell_owner_unique (o : owners) (marker : string) :
  (marker ∈ live_markers o -> tcell_owner_new o marker = inl DuplicateOwner) /\
  (marker ∉ live_markers o ->
   exists o', tcell_owner_new o marker = inr (Static marker, o') /\
              tcell_owner_new o' marker = inl DuplicateOwner).
Proof.
  unfold tcell_owner_new. split.
  - intros Hm. rewrite decide_True by done. reflexivity.
  - intros Hm. rewrite decide_False by done. eexists. split; [reflexivity|].
    rewrite decide_True; [reflexivity|]. simpl. set_solver.
Qed.

Lemma tcell_owner_unique_witness :
  ("Brand" ∉ live_markers (mkOwners ∅ 0)) /\
  exists o', tcell_owner_new (mkOwners ∅ 0) "Brand" = inr (Static "Brand", o') /\
             tcell_owner_new o' "Brand" = inl DuplicateOwner.
Proof.
  assert (Hm : "Brand" ∉ live_markers (mkOwners ∅ 0)) by (simpl; set_solver).
  split; [exact Hm|].
  exact (proj2 (tcell_owner_unique (mkOwners ∅ 0) "Brand") Hm).
Defined.



(** * Further properties of the code *)

(** ** More facts about lists of nodes *)

Section chain_facts.
Context {T : Type}.
Implicit Types (h : heap T) (l : loc) (tok : brand) (ls : list loc) (xs : list T).

Lemma chain_cons h tok l ls x xs :
  brand_at h l = Some tok -> dataof h l = Some x -> nextof h l = head ls ->
  chain h tok ls xs -> chain h tok (l :: ls) (x :: xs).
Proof. intros Hb Hd Hn Hc. destruct ls as [|l' ls]; [inversion Hc|]. by apply chain_link. Qed.

Lemma chain_uncons h tok l ls xs :
  chain h tok (l :: ls) xs ->
  exists x xs', xs = x :: xs' /\ brand_at h l = Some tok /\ dataof h l = Some x /\
    nextof h l = head ls /\ ((ls = [] /\ xs' = []) \/ chain h tok ls xs').
Proof.
  inversion 1 as [? x Hb Hd Hn | ? l' ls' x xs' Hb Hd Hn Hc]; subst.
  - exists x, []. naive_solver.
  - exists x, xs'. naive_solver.
Qed.

Lemma chain_length h tok ls xs : chain h tok ls xs -> length ls = length xs.
Proof. induction 1; simpl in *; lia. Qed.

Lemma chain_mem_brand h tok ls xs : chain h tok ls xs -> forall x, x ∈ ls -> brand_at h x = Some tok.
Proof.
  induction 1 as [l v Hb | l l' ls v xs Hb _ _ _ IH]; intros y Hy.
  - apply list_elem_of_singleton in Hy. by subst.
  - apply elem_of_cons in Hy as [->|Hy]; [done|]. by apply IH.
Qed.

Lemma chain_ext h h' tok ls xs :
  chain h tok ls xs ->
  (forall x, x ∈ ls -> brand_at h' x = brand_at h x /\ dataof h' x = dataof h x /\
                       nextof h' x = nextof h x) ->
  chain h' tok ls xs.
Proof.
  induction 1 as [l v Hb Hd Hn | l l' ls v xs Hb Hd Hn _ IH]; intros Hx.
  - destruct (Hx l) as (E1 & E2 & E3); [set_solver|].
    apply chain_last; congruence.
  - destruct (Hx l) as (E1 & E2 & E3); [set_solver|].
    apply chain_link; [congruence..|]. apply IH. intros y Hy. apply Hx. set_solver.
Qed.

Lemma chain_suffix h tok ls1 ls2 xs :
  chain h tok (ls1 ++ ls2) xs -> ls2 <> [] -> exists xs2, chain h tok ls2 xs2.
Proof.
  revert xs. induction ls1 as [|l ls1 IH]; intros xs Hc Hne; simpl in Hc; [eauto|].
  apply chain_uncons in Hc as (x & xs' & _ & _ & _ & _ & [[Hnil _]|Hc]).
  - by destruct ls1, ls2.
  - eapply IH; eauto.
Qed.

Lemma chain_det h tok ls xs ls' xs' :
  chain h tok ls xs -> chain h tok ls' xs' -> head ls = head ls' -> ls = ls'.
Proof.
  intros Hc. revert ls' xs'.
  induction Hc as [l v Hb Hd Hn | l l1 ls v xs Hb Hd Hn Hc IH]; intros ls' xs' Hc' Hh.
  - destruct ls' as [|l' ls']; [inversion Hc'|]. simpl in Hh. simplify_eq.
    apply chain_uncons in Hc' as (y & ys & _ & _ & _ & Hn' & _).
    rewrite Hn in Hn'. by destruct ls'.
  - destruct ls' as [|l' ls']; [inversion Hc'|]. simpl in Hh. simplify_eq.
    destruct (chain_uncons _ _ _ _ _ Hc') as (y & ys & _ & _ & _ & Hn' & [[Hnil _]|Hc'']);
      rewrite Hn in Hn'; [subst; discriminate|].
    f_equal. eapply IH; [exact Hc''|]. by rewrite <- Hn'.
Qed.

Lemma chain_NoDup h tok ls xs : chain h tok ls xs -> NoDup ls.
Proof.
  induction 1 as [l v | l l' ls v xs Hb Hd Hn Hc IH].
  - apply NoDup_singleton.
  - constructor; [|exact IH]. intros Hin.
    apply list_elem_of_split in Hin as (ls1 & ls2 & Heq).
    assert (Hc2 : exists xs2, chain h tok (l :: ls2) xs2).
    { eapply chain_suffix with (ls1 := ls1). rewrite <- Heq. exact Hc. done. }
    destruct Hc2 as [xs2 Hc2].
    assert (Hc1 : chain h tok (l :: l' :: ls) (v :: xs)) by (by apply chain_link).
    pose proof (chain_det _ _ _ _ _ _ Hc1 Hc2 eq_refl) as E.
    apply (f_equal length) in E. apply (f_equal length) in Heq.
    rewrite length_app in Heq. simpl in *. lia.
Qed.

Lemma chain_next_at h tok ls1 A ls2 xs :
  chain h tok (ls1 ++ A :: ls2) xs -> nextof h A = head ls2.
Proof.
  intros Hc. destruct (chain_suffix _ _ ls1 (A :: ls2) _ Hc) as [xs2 Hc2]; [done|].
  by apply chain_uncons in Hc2 as (_ & _ & _ & _ & _ & Hn & _).
Qed.

(** Splicing a node [new] holding [v] right after [A]. *)
Lemma chain_insert h h' tok ls1 A ls2 xs1 a xs2 new v :
  chain h tok (ls1 ++ A :: ls2) (xs1 ++ a :: xs2) -> length ls1 = length xs1 ->
  (forall x, x ∈ ls1 ++ A :: ls2 -> brand_at h' x = brand_at h x /\ dataof h' x = dataof h x) ->
  (forall x, x ∈ ls1 ++ ls2 -> nextof h' x = nextof h x) ->
  nextof h' A = Some new -> brand_at h' new = Some tok -> dataof h' new = Some v ->
  nextof h' new = head ls2 ->
  chain h' tok (ls1 ++ A :: new :: ls2) (xs1 ++ a :: v :: xs2).
Proof.
  intros Hc Hlen Hbd Hn HA Hbn Hdn Hnn. revert xs1 Hc Hlen Hbd Hn.
  induction ls1 as [|l ls1 IH]; intros xs1 Hc Hlen Hbd Hn.
  - destruct xs1; [|discriminate]. simpl in *.
    apply chain_uncons in Hc as (x & xs' & Exs & Hb & Hd & _ & Hrest). simplify_eq.
    destruct (Hbd A) as [E1 E2]; [set_solver|].
    apply chain_cons; [congruence | congruence | done |].
    destruct Hrest as [[-> ->]|Hrest]; [by apply chain_last|].
    apply chain_cons; [done | done | done |].
    apply (chain_ext h); [done|]. intros y Hy.
    destruct (Hbd y) as [E3 E4]; [set_solver|]. split; [done|]. split; [done|].
    apply Hn. set_solver.
  - destruct xs1 as [|x xs1]; [discriminate|]. simpl in *.
    apply chain_uncons in Hc as (x' & xs' & Exs & Hb & Hd & Hnl & Hrest). simplify_eq.
    destruct Hrest as [[Hnil _]|Hrest]; [by destruct ls1|].
    destruct (Hbd l) as [E1 E2]; [set_solver|].
    apply chain_cons; [congruence | congruence | |].
    + rewrite Hn by set_solver. rewrite Hnl. by destruct ls1.
    + apply (IH xs1 Hrest); [lia | |].
      * intros y Hy. apply Hbd. set_solver.
      * intros y Hy. apply Hn. set_solver.
Qed.

End chain_facts.

(** ** [remove] and [insert_next] *)

(** X1: in steady state [remove] detaches every node that is neither its own
    successor nor its own predecessor ([next] and [prev] both [None]). *)
Theorem remove_detaches {T} tok (h : heap T) n :
  list_inv h -> owned_by h tok -> is_Some (brand_at h n) ->
  nextof h n <> Some n -> prevof h n <> Some n ->
  exists h', remove tok n h = inr (tt, h') /\ nextof h' n = None /\ prevof h' n = None.
Proof.
  rewrite list_inv_links. intros Hi Ho Hb Hnn Hpn.
  destruct (remove_ok_inv tok n h Hi Ho Hb) as [h' Hr].
  exists h'. split; [exact Hr|].
  apply remove_inr in Hr as (_ & _ & _ & Hn & Hp).
  assert (HP : upgrade_in h (prevof h n) <> Some n).
  { intros E. apply upgrade_in_Some in E as [E _]. done. }
  rewrite Hn, Hp. split; repeat case_decide; congruence.
Qed.

Lemma remove_detaches_witness :
  list_inv list123 /\ owned_by list123 (Dynamic 0) /\ is_Some (brand_at list123 2%positive) /\
  nextof list123 2%positive <> Some 2%positive /\ prevof list123 2%positive <> Some 2%positive /\
  exists h', remove (Dynamic 0) 2%positive list123 = inr (tt, h') /\
    nextof h' 2%positive = None /\ prevof h' 2%positive = None.
Proof.
  assert (Hb : is_Some (brand_at list123 2%positive)) by (vm_compute; eauto).
  assert (Hn : nextof list123 2%positive <> Some 2%positive) by (vm_compute; congruence).
  assert (Hp : prevof list123 2%positive <> Some 2%positive) by (vm_compute; congruence).
  split; [exact list123_inv|]. split; [exact list123_owned|].
  split; [exact Hb|]. split; [exact Hn|]. split; [exact Hp|].
  exact (remove_detaches (Dynamic 0) list123 2%positive list123_inv list123_owned Hb Hn Hp).
Defined.

(** X4: creating a node holding [v] and inserting it after a node [A] of a
    list inserts [v] right after [A]'s element; the list keeps its head
    and every other element. *)
Theorem insert_new_after {T} tok (h : heap T) ls1 A ls2 xs1 (a : T) xs2 (v : T) :
  chain h tok (ls1 ++ A :: ls2) (xs1 ++ a :: xs2) -> length ls1 = length xs1 ->
  exists new h',
    (node ← node_new tok v; insert_next tok A node;; mret node) h = inr (new, h') /\
    chain h' tok (ls1 ++ A :: new :: ls2) (xs1 ++ a :: v :: xs2) /\
    forall hd, head (ls1 ++ A :: ls2) = Some hd ->
      view_as_vec (S (length (xs1 ++ a :: xs2))) h' tok (Some hd) = Finished (xs1 ++ a :: v :: xs2).
Proof.
  intros Hc Hlen.
  set (new := fresh (dom h)).
  set (h0 := <[new := Live tok (mkNode v None None)]> h).
  assert (Hnew : node_new tok v h = inr (new, h0)) by reflexivity.
  destruct (node_new_inr _ _ _ _ _ Hnew) as [Hfresh _].
  pose proof (chain_mem_brand _ _ _ _ Hc) as Hmem.
  assert (Hnot : forall y, y ∈ ls1 ++ A :: ls2 -> y <> new).
  { intros y Hy ->. rewrite Hmem in Hfresh by done. discriminate. }
  pose proof (chain_NoDup _ _ _ _ Hc) as Hnd.
  apply NoDup_app in Hnd as (_ & Hdis & Hnd2). apply NoDup_cons in Hnd2 as [HA2 _].
  assert (HA1 : A ∉ ls1) by (intros HA; apply (Hdis A HA); set_solver).
  assert (HnA : nextof h A = head ls2) by (eapply chain_next_at; eauto).
  assert (HbA : brand_at h A = Some tok) by (apply Hmem; set_solver).
  assert (HAn : A <> new) by (apply Hnot; set_solver).
  (* [remove(new)] on the detached new node changes nothing that is seen *)
  destruct (remove_ok tok new h0) as [h1 Hr].
  { unfold h0. push_views. decide_all. }
  { intros w Hw. unfold h0 in Hw. push_views. decide_all. }
  { intros p Hp. unfold h0 in Hp. rewrite prevof_insert, decide_True in Hp by done.
    discriminate. }
  pose proof Hr as (_ & Hb1 & Hd1 & Hn1 & _)%remove_inr.
  assert (Hn1' : forall y, nextof h1 y = nextof h0 y).
  { assert (Hp0 : prevof h0 new = None) by (unfold h0; push_views; decide_all).
    assert (Hn0 : nextof h0 new = None) by (unfold h0; push_views; decide_all).
    intros y. rewrite Hn1, Hp0, Hn0. cbn. decide_all. }
  destruct (insert_next_ok tok A new h0 h1 Hr) as [h' Hins].
  { rewrite Hb1. unfold h0. push_views. decide_all. }
  { rewrite Hb1. unfold h0. push_views. decide_all. }
  { intros s Hs. rewrite Hb1. unfold h0. rewrite Hn1' in Hs. unfold h0 in Hs. push_views.
    decide_all. apply Hmem. rewrite HnA in Hs. destruct ls2; simplify_eq. set_solver. }
  pose proof Hins as (h1' & Hr' & _ & _ & Hb' & Hd' & Hn' & _)%insert_next_inr.
  rewrite Hr in Hr'. simplify_eq.
  assert (Hc' : chain h' tok (ls1 ++ A :: new :: ls2) (xs1 ++ a :: v :: xs2)).
  { apply (chain_insert h h' tok ls1 A ls2 xs1 a xs2 new v Hc Hlen).
    - intros y Hy. pose proof (Hnot y Hy).
      rewrite Hb', Hd', Hb1, Hd1. unfold h0. push_views. decide_all; auto.
    - intros y Hy. assert (y <> A) by (intros ->; apply elem_of_app in Hy; tauto).
      assert (y <> new) by (apply Hnot; set_solver).
      rewrite Hn', decide_False, decide_False, (Hn1' y) by done. unfold h0. push_views.
      decide_all.
    - rewrite Hn'. decide_all.
    - rewrite Hb', Hb1. unfold h0. push_views. decide_all.
    - rewrite Hd', Hd1. unfold h0. push_views. decide_all.
    - rewrite Hn', decide_False, decide_True by done. rewrite Hn1'.
      unfold h0. push_views. decide_all. }
  exists new, h'. split.
  { rewrite (bind_ok _ _ _ _ _ Hnew). rewrite (bind_ok _ _ _ _ _ Hins). reflexivity. }
  split; [exact Hc'|].
  intros hd Hhd. eapply chain_view; [exact Hc' | | rewrite !length_app; simpl; lia].
  destruct ls1; simpl in *; congruence.
Qed.

Lemma list123_chain : chain list123 (Dynamic 0) [1%positive; 2%positive; 3%positive] [1; 2; 3].
Proof. repeat first [apply chain_link; [reflexivity..|] | apply chain_last; reflexivity]. Qed.

Lemma insert_new_after_witness :
  chain list123 (Dynamic 0) ([1%positive] ++ 2%positive :: [3%positive]) ([1] ++ 2 :: [3]) /\
  length [1%positive] = length [1] /\
  exists new h',
    (node ← node_new (Dynamic 0) 9; insert_next (Dynamic 0) 2%positive node;; mret node) list123
      = inr (new, h') /\
    chain h' (Dynamic 0) ([1%positive] ++ 2%positive :: new :: [3%positive]) ([1] ++ 2 :: 9 :: [3]) /\
    forall hd, head ([1%positive] ++ 2%positive :: [3%positive]) = Some hd ->
      view_as_vec (S (length ([1] ++ 2 :: [3]))) h' (Dynamic 0) (Some hd)
        = Finished ([1] ++ 2 :: 9 :: [3]).
Proof.
  split; [exact list123_chain|]. split; [reflexivity|].
  exact (insert_new_after (Dynamic 0) list123 [1%positive] 2%positive [3%positive] [1] 2 [3] 9
           list123_chain eq_refl).
Defined.

(** ** The loops and clients of ghost_cell.rs *)

Lemma chain_last_brand {T} (h : heap T) tok ls xs t :
  chain h tok ls xs -> last ls = Some t -> brand_at h t = Some tok.
Proof. induction 1; simpl in *; [congruence | auto]. Qed.

Lemma chain_last_view {T} (h : heap T) tok ls xs t :
  chain h tok ls xs -> last ls = Some t ->
  exists x, last xs = Some x /\ view_as_vec 1 h tok (Some t) = Finished [x].
Proof.
  induction 1 as [l v Hb Hd Hn | l l' ls v xs Hb Hd Hn Hc IH]; intros Hlast.
  - simpl in Hlast. simplify_eq. exists v. split; [done|].
    destruct (ro_views _ _ _ Hb) as (n & Hro & Hdn & Hnn). simpl. rewrite Hro, <- Hnn, Hn.
    congruence.
  - destruct (IH Hlast) as (x & Hx & Hv). exists x. split; [|done].
    destruct xs; [inversion Hc|]. exact Hx.
Qed.

Lemma init_list_loop_chain tok (is : list Z) : forall h ls xs t,
  chain h tok ls xs -> last ls = Some t ->
  exists h' ls' t', init_list_loop tok t is h = inr (t', h') /\
    chain h' tok ls' (xs ++ is) /\ head ls' = head ls /\ last ls' = Some t'.
Proof.
  induction is as [|i is IH]; intros h ls xs t Hc Hlast.
  - exists h, ls, t. rewrite app_nil_r. done.
  - simpl.
    set (l := fresh (dom h)).
    assert (Hnew : node_new tok i h = inr (l, <[l := Live tok (mkNode i None None)]> h))
      by reflexivity.
    rewrite (bind_ok _ _ _ _ _ Hnew).
    set (h1 := <[l := Live tok (mkNode i None None)]> h).
    destruct (node_new_inr _ _ _ _ _ Hnew) as [Hfresh _].
    pose proof (chain_last_next _ _ _ _ _ Hc Hlast) as Hnt.
    pose proof (chain_last_brand _ _ _ _ _ Hc Hlast) as Hbt.
    assert (Htl : t <> l) by congruence.
    destruct (insert_next_after_tail tok t l h1) as (h2 & Hi & Hb2 & Hd2 & Hn2);
      try (unfold h1; push_views; decide_all).
    rewrite (bind_ok _ _ _ _ _ Hi).
    assert (Hc2 : chain h2 tok (ls ++ [l]) (xs ++ [i])).
    { eapply chain_extend; [exact Hc | exact Hlast | exact Hfresh | ..];
        intros; rewrite ?Hb2, ?Hd2, ?Hn2; unfold h1; push_views; decide_all. }
    destruct (IH h2 (ls ++ [l]) (xs ++ [i]) l Hc2) as (h3 & ls3 & t3 & Hl3 & Hc3 & Hh3 & Ht3).
    { by rewrite last_app. }
    exists h3, ls3, t3. split; [exact Hl3|]. rewrite <- app_assoc in Hc3.
    split; [exact Hc3|]. split; [|exact Ht3]. rewrite Hh3.
    destruct ls; [by apply chain_nonempty in Hc|]. done.
Qed.

Lemma z_range_0 (n : Z) : 0%Z :: z_range 1 n = z_range 0 (Z.max n 1).
Proof.
  unfold z_range.
  replace (Z.to_nat (Z.max n 1 - 0)) with (S (Z.to_nat (n - 1))) by lia.
  simpl. f_equal. rewrite <- seq_shift, map_map. apply map_ext. intros k. lia.
Qed.

Lemma z_range_last (m : Z) : (1 <= m)%Z -> last (z_range 0 m) = Some (m - 1)%Z.
Proof.
  intros Hm. unfold z_range.
  replace (Z.to_nat (m - 0)) with (S (Z.to_nat (m - 1))) by lia.
  rewrite seq_S, map_app, last_app. simpl. f_equal. lia.
Qed.

Lemma z_range_length (m : Z) : length (z_range 0 m) = Z.to_nat m.
Proof. unfold z_range. rewrite length_map, length_seq. f_equal. lia. Qed.

(** X5: [init_list(token, list_size)] returns the head of the list
    [0, 1, ..., max(list_size, 1) - 1] and its last node as the tail. *)
Theorem init_list_contents tok (n : Z) (h : heap Z) :
  exists hd tl h', init_list tok n h = inr ((hd, tl), h') /\
    (exists ls, chain h' tok ls (z_range 0 (Z.max n 1)) /\
                head ls = Some hd /\ last ls = Some tl) /\
    view_as_vec (Z.to_nat (Z.max n 1)) h' tok (Some hd) = Finished (z_range 0 (Z.max n 1)) /\
    view_as_vec 1 h' tok (Some tl) = Finished [(Z.max n 1 - 1)%Z].
Proof.
  unfold init_list.
  set (hd := fresh (dom h)).
  assert (Hnew : node_new tok 0%Z h = inr (hd, <[hd := Live tok (mkNode 0%Z None None)]> h))
    by reflexivity.
  rewrite (bind_ok _ _ _ _ _ Hnew).
  assert (Hc : chain (<[hd := Live tok (mkNode 0%Z None None)]> h) tok [hd] [0%Z]).
  { apply chain_last; push_views; decide_all. }
  destruct (init_list_loop_chain tok (z_range 1 n) _ [hd] [0%Z] hd Hc eq_refl)
    as (h' & ls & tl & Hl & Hc' & Hh & Ht).
  exists hd, tl, h'. rewrite (bind_ok _ _ _ _ _ Hl). split; [reflexivity|].
  simpl in Hc'. rewrite z_range_0 in Hc'. split; [by exists ls|]. split.
  - eapply chain_view; [exact Hc' | exact Hh | rewrite z_range_length; lia].
  - destruct (chain_last_view _ _ _ _ _ Hc' Ht) as (x & Hx & Hv).
    rewrite z_range_last in Hx by lia. congruence.
Qed.

(** X6: for [list_size <= 1] the loop of [init_list] does not run: head and
    tail are one node holding [0]. *)
Theorem init_list_small tok (n : Z) (h : heap Z) :
  (n <= 1)%Z ->
  exists hd h', init_list tok n h = inr ((hd, hd), h') /\
    view_as_vec 2 h' tok (Some hd) = Finished [0%Z].
Proof.
  intros Hn. unfold init_list.
  assert (Hr : z_range 1 n = []).
  { unfold z_range. replace (Z.to_nat (n - 1)) with 0%nat by lia. reflexivity. }
  rewrite Hr. eexists _, _. split; [reflexivity|].
  cbn [view_as_vec]. unfold ro. rewrite lookup_insert, decide_True by done.
  rewrite decide_True by done. reflexivity.
Qed.

Lemma init_list_small_witness :
  (0 <= 1)%Z /\
  exists hd h', init_list (Static "id") 0%Z (∅ : heap Z) = inr ((hd, hd), h') /\
    view_as_vec 2 h' (Static "id") (Some hd) = Finished [0%Z].
Proof.
  assert (H : (0 <= 1)%Z) by lia. split; [exact H|].
  exact (init_list_small (Static "id") 0%Z ∅ H).
Defined.

(** X7: [ListWrapper::create] panics on an empty sequence
    ([iter.next().unwrap()]); otherwise it builds the same list as
    [Node::from_iter], whose traversal gives back the elements. *)
Theorem create_contents {T} tok (h : heap T) :
  create tok [] h = inl UnwrapNone /\
  forall (e : T) es, exists hd h', create tok (e :: es) h = inr (hd, h') /\
    from_iter tok (e :: es) h = inr (Some hd, h') /\
    view_as_vec (length (e :: es)) h' tok (Some hd) = Finished (e :: es).
Proof.
  split; [reflexivity|]. intros e es.
  set (hd := fresh (dom h)).
  assert (Hnew : node_new tok e h = inr (hd, <[hd := Live tok (mkNode e None None)]> h))
    by reflexivity.
  assert (Hc : chain (<[hd := Live tok (mkNode e None None)]> h) tok [hd] [e]).
  { apply chain_last; push_views; decide_all. }
  destruct (from_iter_loop_chain tok es _ [hd] [e] hd Hc eq_refl)
    as (h' & ls & Hl & Hc' & Hh).
  exists hd, h'. unfold create, from_iter.
  rewrite !(bind_ok _ _ _ _ _ Hnew), !(bind_ok _ _ _ _ _ Hl).
  split; [reflexivity|]. split; [reflexivity|].
  eapply chain_view; [exact Hc' | exact Hh | simpl; lia].
Qed.

Lemma iter_mut_loop_chain {T St} tok (f : St -> T -> St * T) ls : forall h xs (s : St) fuel,
  chain h tok ls xs -> length xs <= fuel ->
  exists h', iter_mut_loop fuel h tok f s (head ls) = Finished (h', fst (map_acc f s xs)) /\
    chain h' tok ls (snd (map_acc f s xs)) /\
    (forall y, brand_at h' y = brand_at h y /\ nextof h' y = nextof h y /\
               prevof h' y = prevof h y) /\
    (forall y, y ∉ ls -> dataof h' y = dataof h y).
Proof.
  induction ls as [|l ls IH]; intros h xs s fuel Hc Hf; [inversion Hc|].
  pose proof (chain_NoDup _ _ _ _ Hc) as Hnd. apply NoDup_cons in Hnd as [Hl _].
  apply chain_uncons in Hc as (x & xs' & -> & Hb & Hd & Hn & Hrest).
  destruct (brand_at_Some _ _ _ Hb) as [n Hln].
  rewrite (dataof_lookup _ _ _ _ Hln) in Hd. rewrite (nextof_lookup _ _ _ _ Hln) in Hn.
  simplify_eq.
  destruct fuel as [|fuel]; [simpl in Hf; lia|].
  destruct (f s (data n)) as [s1 y] eqn:Ef.
  set (h2 := <[l := Live tok (set_data y n)]> h).
  assert (Hrw : rw tok l h = inr (n, h)).
  { unfold rw, ro. rewrite Hln, decide_True by done. reflexivity. }
  assert (Hw : write tok l (set_data y n) h = inr (tt, h2)).
  { unfold write. rewrite Hln, decide_True by done. reflexivity. }
  assert (Hv2 : forall y, brand_at h2 y = brand_at h y /\ nextof h2 y = nextof h y /\
                          prevof h2 y = prevof h y).
  { intros z. unfold h2. push_views. case_decide; [subst|auto].
    rewrite (brand_at_lookup _ _ _ _ Hln), (nextof_lookup _ _ _ _ Hln),
      (prevof_lookup _ _ _ _ Hln). auto. }
  assert (Hd2 : forall z, z <> l -> dataof h2 z = dataof h z).
  { intros z Hz. unfold h2. push_views. decide_all. }
  cbn [iter_mut_loop head map_acc]. rewrite Hrw, Ef, Hw.
  destruct Hrest as [[-> ->]|Hrest].
  - simpl in Hn. rewrite Hn. exists h2. split; [by destruct fuel|]. split.
    + apply chain_last; unfold h2; push_views; decide_all.
    + split; [exact Hv2|]. intros z Hz. apply Hd2. set_solver.
  - rewrite Hn.
    assert (Hc2 : chain h2 tok ls xs').
    { apply (chain_ext h); [exact Hrest|]. intros z Hz.
      assert (z <> l) by (intros ->; contradiction).
      destruct (Hv2 z) as (E1 & E2 & _). rewrite Hd2 by done. auto. }
    destruct (IH h2 xs' s1 fuel Hc2) as (h' & Hit & Hc' & Hv' & Hd'); [simpl in Hf; lia|].
    destruct (map_acc f s1 xs') as [s2 ys] eqn:Em. simpl in Hit, Hc' |- *.
    exists h'. split; [exact Hit|]. split; [|split].
    + apply chain_cons; [| | |exact Hc'].
      * destruct (Hv' l) as (E & _ & _). rewrite E. by destruct (Hv2 l) as (-> & _ & _).
      * rewrite Hd' by done. unfold h2. push_views. decide_all.
      * destruct (Hv' l) as (_ & E & _). rewrite E.
        destruct (Hv2 l) as (_ & -> & _). by rewrite (nextof_lookup _ _ _ _ Hln).
    + intros z. destruct (Hv' z) as (E1 & E2 & E3). destruct (Hv2 z) as (F1 & F2 & F3).
      split; [congruence|]. split; congruence.
    + intros z Hz. rewrite Hd' by set_solver. apply Hd2. set_solver.
Qed.

Lemma map_acc_length {St A} (f : St -> A -> St * A) (s : St) xs :
  length (snd (map_acc f s xs)) = length xs.
Proof.
  revert s. induction xs as [|x xs IH]; intros s; [done|]. simpl.
  destruct (f s x) as [s1 y]. specialize (IH s1).
  destruct (map_acc f s1 xs) as [s2 ys]. simpl in *. by rewrite IH.
Qed.

(** X8: [Node::iter_mut(node, token, f)] calls the closure once on every
    element of the list from [node], front to back, threading the
    closure's state from one call to the next; each element is replaced
    by what the call makes of it.  Nothing else changes: no link, no brand
    and no node outside the list. *)
Theorem iter_mut_maps {T St} tok (h : heap T) (f : St -> T -> St * T) (s : St) ls xs hd fuel :
  chain h tok ls xs -> head ls = Some hd -> length xs <= fuel ->
  exists h', iter_mut fuel h tok f s hd = Finished (h', fst (map_acc f s xs)) /\
    view_as_vec fuel h' tok (Some hd) = Finished (snd (map_acc f s xs)) /\
    (forall y, brand_at h' y = brand_at h y /\ nextof h' y = nextof h y /\
               prevof h' y = prevof h y) /\
    (forall y, y ∉ ls -> dataof h' y = dataof h y).
Proof.
  intros Hc Hhd Hf.
  destruct (iter_mut_loop_chain tok f ls h xs s fuel Hc Hf) as (h' & Hit & Hc' & Hv & Hd).
  exists h'. split; [unfold iter_mut; rewrite <- Hhd; exact Hit|].
  split; [|split; [exact Hv | exact Hd]].
  eapply chain_view; [exact Hc' | exact Hhd | by rewrite map_acc_length].
Qed.

Lemma iter_mut_maps_witness :
  chain list123 (Dynamic 0) [1%positive; 2%positive; 3%positive] [1; 2; 3] /\
  head [1%positive; 2%positive; 3%positive] = Some 1%positive /\ length [1; 2; 3] <= 3 /\
  exists h', iter_mut 3 list123 (Dynamic 0) count_and_add 0 1%positive
               = Finished (h', fst (map_acc count_and_add 0 [1; 2; 3])) /\
    view_as_vec 3 h' (Dynamic 0) (Some 1%positive)
      = Finished (snd (map_acc count_and_add 0 [1; 2; 3])) /\
    (forall y, brand_at h' y = brand_at list123 y /\ nextof h' y = nextof list123 y /\
               prevof h' y = prevof list123 y) /\
    (forall y, y ∉ [1%positive; 2%positive; 3%positive] -> dataof h' y = dataof list123 y).
Proof.
  assert (Hf : length [1; 2; 3] <= 3) by (simpl; lia).
  split; [exact list123_chain|]. split; [reflexivity|]. split; [exact Hf|].
  exact (iter_mut_maps (Dynamic 0) list123 count_and_add 0 _ _ 1%positive 3
           list123_chain eq_refl Hf).
Defined.

Lemma collect_chain {T} (h : heap T) tok ls xs :
  chain h tok ls xs -> forall fuel, length xs < fuel -> collect fuel h tok (head ls) = Finished xs.
Proof.
  induction 1 as [l v Hb Hd Hn | l l' ls v xs Hb Hd Hn Hc IH]; intros fuel Hf;
    (destruct fuel as [|fuel]; [simpl in Hf; lia|]);
    destruct (ro_views _ _ _ Hb) as (n & Hro & Hdn & Hnn); cbn [collect iter_next head];
    rewrite Hro; rewrite Hd in Hdn; simplify_eq; rewrite <- Hnn, Hn.
  - destruct fuel as [|fuel]; [simpl in Hf; lia|]. reflexivity.
  - assert (E : length xs < fuel) by (simpl in Hf; lia).
    specialize (IH fuel E). simpl in IH. rewrite IH. reflexivity.
Qed.

Lemma iterate_chain {T} (h : heap T) tok ls xs :
  chain h tok ls xs -> forall fuel, length xs <= fuel -> iterate_loop fuel h tok (head ls) = Finished xs.
Proof.
  induction 1 as [l v Hb Hd Hn | l l' ls v xs Hb Hd Hn Hc IH]; intros fuel Hf;
    (destruct fuel as [|fuel]; [simpl in Hf; lia|]);
    destruct (ro_views _ _ _ Hb) as (n & Hro & Hdn & Hnn); cbn [iterate_loop head];
    rewrite Hro; rewrite Hd in Hdn; simplify_eq; rewrite <- Hnn, Hn.
  - by destruct fuel.
  - assert (E : length xs <= fuel) by (simpl in Hf; lia).
    specialize (IH fuel E). simpl in IH. rewrite IH. reflexivity.
Qed.

(** X9: on a list, the ghost_cell traversals agree: [Node::view_as_vec]
    (collecting [Node::iter], which answers [None] after the last node)
    returns the elements in order, and [Node::iterate] calls [f] on exactly
    these elements, in this order. *)
Theorem ghost_traversals {T} tok (h : heap T) ls xs hd :
  chain h tok ls xs -> head ls = Some hd ->
  ghost_view_as_vec (S (length xs)) h tok hd = Finished xs /\
  iterate (length xs) h tok hd = Finished xs.
Proof.
  intros Hc Hhd. unfold ghost_view_as_vec, iterate. rewrite <- Hhd.
  split; [apply (collect_chain _ _ _ _ Hc); lia | apply (iterate_chain _ _ _ _ Hc); lia].
Qed.

Lemma ghost_traversals_witness :
  chain list123 (Dynamic 0) [1%positive; 2%positive; 3%positive] [1; 2; 3] /\
  head [1%positive; 2%positive; 3%positive] = Some 1%positive /\
  ghost_view_as_vec (S (length [1; 2; 3])) list123 (Dynamic 0) 1%positive = Finished [1; 2; 3] /\
  iterate (length [1; 2; 3]) list123 (Dynamic 0) 1%positive = Finished [1; 2; 3].
Proof.
  split; [exact list123_chain|]. split; [reflexivity|].
  exact (ghost_traversals (Dynamic 0) list123 _ _ 1%positive list123_chain eq_refl).
Defined.

(** X10: writing [data] through the node [ListWrapper::expose_mut_node]
    hands out changes the first element of the list and no other. *)
Theorem expose_mut_node_write {T} tok (h : heap T) ls (x : T) xs hd (v : T) :
  chain h tok ls (x :: xs) -> head ls = Some hd ->
  exists h', (n ← expose_mut_node tok hd; write tok hd (set_data v n)) h = inr (tt, h') /\
    view_as_vec (S (length xs)) h' tok (Some hd) = Finished (v :: xs).
Proof.
  intros Hc Hhd. destruct ls as [|l ls]; [inversion Hc|]. simpl in Hhd. simplify_eq.
  pose proof (chain_NoDup _ _ _ _ Hc) as Hnd. apply NoDup_cons in Hnd as [Hl _].
  apply chain_uncons in Hc as (x' & xs' & Exs & Hb & Hd & Hn & Hrest).
  injection Exs as <- <-.
  destruct (brand_at_Some _ _ _ Hb) as [n Hln].
  set (h2 := <[hd := Live tok (set_data v n)]> h).
  exists h2. split.
  { unfold expose_mut_node, mbind, M_bind, rw, ro, write.
    rewrite Hln, decide_True by done. rewrite Hln, decide_True by done. reflexivity. }
  assert (Hb2 : brand_at h2 hd = Some tok) by (unfold h2; push_views; decide_all).
  assert (Hd2 : dataof h2 hd = Some v) by (unfold h2; push_views; decide_all).
  assert (Hn2 : nextof h2 hd = head ls).
  { unfold h2. push_views. decide_all. rewrite <- Hn. by erewrite nextof_lookup. }
  assert (Hc2 : chain h2 tok (hd :: ls) (v :: xs)).
  { destruct Hrest as [[-> ->]|Hrest]; [by apply chain_last|].
    apply chain_cons; [done..|].
    apply (chain_ext h); [exact Hrest|]. intros y Hy.
    assert (y <> hd) by (intros ->; contradiction).
    unfold h2. push_views. decide_all; auto. }
  eapply chain_view; [exact Hc2 | reflexivity | simpl; lia].
Qed.

Lemma expose_mut_node_write_witness :
  chain list123 (Dynamic 0) [1%positive; 2%positive; 3%positive] (1 :: [2; 3]) /\
  head [1%positive; 2%positive; 3%positive] = Some 1%positive /\
  exists h', (n ← expose_mut_node (Dynamic 0) 1%positive;
              write (Dynamic 0) 1%positive (set_data 666 n)) list123 = inr (tt, h') /\
    view_as_vec (S (length [2; 3])) h' (Dynamic 0) (Some 1%positive) = Finished (666 :: [2; 3]).
Proof.
  split; [exact list123_chain|]. split; [reflexivity|].
  exact (expose_mut_node_write (Dynamic 0) list123 _ 1 [2; 3] 1%positive 666
           list123_chain eq_refl).
Defined.

(** *** The deque of cell_family.rs *)

Section deque_facts.
Context {T : Type}.
Implicit Types (cs : gmap loc (Deque.DNode T)) (d : Deque.Deque T).

Lemma dlinked_length cs p ls xs : Deque.dlinked cs p ls xs -> length ls = length xs.
Proof.
  revert p xs. induction ls as [|l ls IH]; intros p [|x xs] H; simpl in *; try done.
  destruct H as [_ H]. f_equal. eauto.
Qed.

Lemma dlinked_lookup cs p ls xs :
  Deque.dlinked cs p ls xs -> forall l, l ∈ ls -> is_Some (cs !! l).
Proof.
  revert p xs. induction ls as [|l ls IH]; intros p [|x xs] H y Hy; simpl in *; try done;
    [by apply elem_of_nil in Hy|].
  destruct H as [Hl H]. apply elem_of_cons in Hy as [->|Hy]; [by eexists|]. eauto.
Qed.

Lemma dlinked_frame cs cs' p ls xs :
  Deque.dlinked cs p ls xs -> (forall l, l ∈ ls -> cs' !! l = cs !! l) ->
  Deque.dlinked cs' p ls xs.
Proof.
  revert p xs. induction ls as [|l ls IH]; intros p [|x xs] H Hfr; simpl in *; try done.
  destruct H as [Hl H]. split.
  - rewrite Hfr by set_solver. done.
  - apply (IH _ _ H). set_solver.
Qed.

(** Extending a linked list at its last node [t] by a node [new]. *)
Lemma dlinked_snoc cs cs' p ls0 xs0 t (y : T) new (x : T) :
  Deque.dlinked cs p (ls0 ++ [t]) (xs0 ++ [y]) -> length ls0 = length xs0 ->
  (forall l, l ∈ ls0 -> cs' !! l = cs !! l) ->
  (forall q, cs !! t = Some (Deque.mkDNode y None q) ->
             cs' !! t = Some (Deque.mkDNode y (Some new) q)) ->
  cs' !! new = Some (Deque.mkDNode x None (Some t)) ->
  Deque.dlinked cs' p (ls0 ++ [t; new]) (xs0 ++ [y; x]).
Proof.
  revert p xs0. induction ls0 as [|l ls0 IH]; intros p [|z xs0] H Hlen Hfr Ht Hnew;
    simpl in *; try done.
  - destruct H as [Hl _]. split; [by apply Ht|]. split; done.
  - destruct H as [Hl H]. split.
    + rewrite Hfr by set_solver. rewrite Hl. by destruct ls0.
    + apply (IH _ _ H); [lia| |done..]. set_solver.
Qed.

Lemma dlinked_as_vec cs p ls xs :
  Deque.dlinked cs p ls xs -> forall fuel, length ls <= fuel ->
  Deque.as_vec_loop fuel cs (hd_error ls) = Finished xs.
Proof.
  revert p xs. induction ls as [|l ls IH]; intros p [|x xs] H fuel Hf; simpl in *; try done;
    [by destruct fuel|].
  destruct H as [Hl H]. destruct fuel as [|fuel]; [lia|]. simpl. rewrite Hl. simpl.
  rewrite (IH _ _ H fuel) by lia. done.
Qed.

Lemma add_to_empty_inv d (x : T) :
  Deque.head d = None ->
  Deque.deque_inv (Deque.add_to_empty d (Deque.mkDNode x None None))
    [fresh (dom (Deque.cells d))] [x].
Proof.
  intros _. unfold Deque.add_to_empty, Deque.deque_inv. simpl.
  rewrite lookup_insert_eq. split; [done|]. split; [done|]. split; [done|].
  apply NoDup_singleton.
Qed.

Lemma deque_inv_empty_head d ls xs :
  Deque.deque_inv d ls xs -> Deque.head d = None -> ls = [] /\ xs = [].
Proof.
  intros (Hl & Hh & _ & _) E. rewrite E in Hh. destruct ls; [|done].
  destruct xs; done.
Qed.

Lemma deque_inv_fresh d ls xs :
  Deque.deque_inv d ls xs -> fresh (dom (Deque.cells d)) ∉ ls.
Proof.
  intros (Hl & _ & _ & _) Hin. destruct (dlinked_lookup _ _ _ _ Hl _ Hin) as [n Hn].
  apply (is_fresh (dom (Deque.cells d))). apply elem_of_dom. by eexists.
Qed.

End deque_facts.

Lemma deque_inv_as_vec {T} (d : Deque.Deque T) ls xs fuel :
  Deque.deque_inv d ls xs -> length xs <= fuel ->
  Deque.as_vec fuel d = Finished xs.
Proof.
  intros (Hl & Hh & _ & _) Hf. unfold Deque.as_vec. rewrite Hh.
  apply (dlinked_as_vec _ _ _ _ Hl). rewrite (dlinked_length _ _ _ _ Hl). done.
Qed.

Section deque_ops.
Context {T : Type}.
Implicit Types (cs : gmap loc (Deque.DNode T)) (d : Deque.Deque T).

Lemma deque_inv_empty : Deque.deque_inv (@Deque.empty T) [] [].
Proof. repeat split. constructor. Qed.

Lemma add_first_keeps_inv d ls xs (x : T) :
  Deque.deque_inv d ls xs ->
  Deque.deque_inv (Deque.add_first d x) (fresh (dom (Deque.cells d)) :: ls) (x :: xs).
Proof.
  intros Hinv. pose proof (deque_inv_fresh _ _ _ Hinv) as Hfr.
  unfold Deque.add_first. destruct (Deque.head d) as [l|] eqn:Eh.
  - destruct Hinv as (Hl & Hh & Ht & Hnd).
    rewrite Eh in Hh. destruct ls as [|l' ls]; [done|]. simpl in Hh. injection Hh as <-.
    destruct xs as [|y ys]; [done|]. destruct Hl as [Hl Hrest].
    set (new := fresh (dom (Deque.cells d))) in *.
    assert (Hne : l <> new) by (intros ->; set_solver).
    apply NoDup_cons in Hnd as [Hl' Hnd].
    unfold Deque.deque_inv; simpl. split; [split; [|split]|split; [done|split; [done|]]].
    + rewrite lookup_alter_ne by done. by rewrite lookup_insert_eq.
    + rewrite lookup_alter, lookup_insert_ne by done. rewrite Hl, decide_True by done. reflexivity.
    + apply (dlinked_frame _ _ _ _ _ Hrest). intros z Hz.
      rewrite lookup_alter_ne by (intros ->; contradiction).
      rewrite lookup_insert_ne by (intros ->; set_solver). done.
    + apply NoDup_cons; split; [done|]. by apply NoDup_cons.
  - destruct (deque_inv_empty_head _ _ _ Hinv Eh) as [-> ->].
    by apply add_to_empty_inv.
Qed.

Lemma add_last_keeps_inv d ls xs (x : T) :
  Deque.deque_inv d ls xs ->
  Deque.deque_inv (Deque.add_last d x) (ls ++ [fresh (dom (Deque.cells d))]) (xs ++ [x]).
Proof.
  intros Hinv. pose proof (deque_inv_fresh _ _ _ Hinv) as Hfr.
  pose proof (dlinked_length _ _ _ _ (proj1 Hinv)) as Hlen.
  unfold Deque.add_last. destruct (Deque.tail d) as [t|] eqn:Et.
  - destruct Hinv as (Hl & Hh & Ht & Hnd).
    rewrite Et in Ht. symmetry in Ht. apply last_Some in Ht as [ls0 ->].
    destruct xs as [|x0 xs0] using rev_ind; [rewrite length_app in Hlen; simpl in Hlen; lia|].
    clear IHxs0. rename x0 into y.
    rewrite !length_app in Hlen. simpl in Hlen.
    set (new := fresh (dom (Deque.cells d))) in *.
    assert (Htn : t <> new) by (intros ->; set_solver).
    pose proof Hnd as Hnd'. apply NoDup_app in Hnd' as (_ & Hdis & _).
    unfold Deque.deque_inv; simpl. rewrite <- !app_assoc. simpl.
    split; [|split; [|split]].
    + apply (dlinked_snoc _ _ _ _ _ _ _ _ _ Hl); [lia| | |].
      * intros l Hin. rewrite lookup_alter_ne.
        { rewrite lookup_insert_ne by (intros ->; set_solver). done. }
        intros E. subst l. apply (Hdis t Hin). set_solver.
      * intros q Hq. rewrite lookup_alter, lookup_insert_ne by done. rewrite Hq, decide_True by done. reflexivity.
      * rewrite lookup_alter_ne by done. by rewrite lookup_insert_eq.
    + rewrite Hh. by destruct ls0.
    + change (ls0 ++ [t; new]) with (ls0 ++ [t] ++ [new]). rewrite app_assoc.
      by rewrite last_snoc.
    + change (ls0 ++ [t; new]) with (ls0 ++ [t] ++ [new]). rewrite app_assoc.
      apply NoDup_app. split; [done|]. split; [set_solver|apply NoDup_singleton].
  - destruct Hinv as (Hl & Hh & Ht & Hnd). rewrite Et in Ht. symmetry in Ht.
    apply last_None in Ht as ->. destruct xs; [|done].
    by apply add_to_empty_inv.
Qed.

Lemma run_ops_inv (ops : list (@Deque.deque_op T)) : forall d ls xs,
  Deque.deque_inv d ls xs ->
  exists ls', Deque.deque_inv (fold_left Deque.run_op ops d) ls' (fold_left Deque.model_op ops xs).
Proof.
  induction ops as [|op ops IH]; intros d ls xs Hinv; simpl; [by exists ls|].
  destruct op as [x|x]; simpl.
  - exact (IH _ _ _ (add_first_keeps_inv _ _ _ x Hinv)).
  - exact (IH _ _ _ (add_last_keeps_inv _ _ _ x Hinv)).
Qed.

Lemma model_ops_length (ops : list (@Deque.deque_op T)) : forall xs,
  length (fold_left Deque.model_op ops xs) = length ops + length xs.
Proof.
  induction ops as [|[x|x] ops IH]; intros xs; simpl; [done| |];
    rewrite IH; [simpl|rewrite length_app; simpl]; lia.
Qed.

End deque_ops.

Lemma deque21_inv : Deque.deque_inv deque21 [2%positive; 1%positive] [1; 2].
Proof.
  unfold Deque.deque_inv. split; [|split; [reflexivity|split; [reflexivity|]]].
  - vm_compute. repeat split.
  - repeat constructor; set_solver.
Qed.

(** X11: [Deque::as_vec] on a well-formed deque holding [xs] returns
    [xs], front to back, once it may run [length xs] iterations. *)
Theorem as_vec_deque_inv {T} (d : Deque.Deque T) ls xs fuel :
  Deque.deque_inv d ls xs -> length xs <= fuel ->
  Deque.as_vec fuel d = Finished xs.
Proof.
  intros Hinv Hf. unfold Deque.as_vec. destruct Hinv as (Hl & Hh & _ & _). rewrite Hh.
  apply (dlinked_as_vec _ _ _ _ Hl). rewrite (dlinked_length _ _ _ _ Hl). done.
Qed.

Lemma as_vec_deque_inv_witness :
  Deque.deque_inv deque21 [2%positive; 1%positive] [1; 2] /\ (length [1; 2] <= 2) /\
  Deque.as_vec 2 deque21 = Finished [1; 2].
Proof.
  split; [exact deque21_inv|]. split; [simpl; lia|].
  exact (as_vec_deque_inv deque21 _ _ 2 deque21_inv (le_n 2)).
Defined.

(** X12: [Deque::add_first] on a well-formed deque holding [xs] gives a
    well-formed deque whose new head is a fresh node, holding [x :: xs]. *)
Theorem add_first_prepends {T} (d : Deque.Deque T) ls xs (x : T) :
  Deque.deque_inv d ls xs ->
  Deque.deque_inv (Deque.add_first d x) (fresh (dom (Deque.cells d)) :: ls) (x :: xs) /\
  Deque.as_vec (S (length xs)) (Deque.add_first d x) = Finished (x :: xs).
Proof.
  intros Hinv. pose proof (add_first_keeps_inv _ _ _ x Hinv) as H.
  split; [exact H|]. by apply (deque_inv_as_vec _ _ _ _ H).
Qed.

Lemma add_first_prepends_witness :
  Deque.deque_inv deque21 [2%positive; 1%positive] [1; 2] /\
  Deque.deque_inv (Deque.add_first deque21 0) (fresh (dom (Deque.cells deque21)) :: [2%positive; 1%positive]) (0 :: [1; 2]) /\
  Deque.as_vec (S (length [1; 2])) (Deque.add_first deque21 0) = Finished (0 :: [1; 2]).
Proof.
  split; [exact deque21_inv|].
  exact (add_first_prepends deque21 _ _ 0 deque21_inv).
Defined.

(** X13: [Deque::add_last] on a well-formed deque holding [xs] gives a
    well-formed deque whose new tail is a fresh node, holding [xs ++ [x]]. *)
Theorem add_last_appends {T} (d : Deque.Deque T) ls xs (x : T) :
  Deque.deque_inv d ls xs ->
  Deque.deque_inv (Deque.add_last d x) (ls ++ [fresh (dom (Deque.cells d))]) (xs ++ [x]) /\
  Deque.as_vec (S (length xs)) (Deque.add_last d x) = Finished (xs ++ [x]).
Proof.
  intros Hinv. pose proof (add_last_keeps_inv _ _ _ x Hinv) as H.
  split; [exact H|]. apply (deque_inv_as_vec _ _ _ _ H). rewrite length_app. simpl. lia.
Qed.

Lemma add_last_appends_witness :
  Deque.deque_inv deque21 [2%positive; 1%positive] [1; 2] /\
  Deque.deque_inv (Deque.add_last deque21 3) ([2%positive; 1%positive] ++ [fresh (dom (Deque.cells deque21))]) ([1; 2] ++ [3]) /\
  Deque.as_vec (S (length [1; 2])) (Deque.add_last deque21 3) = Finished ([1; 2] ++ [3]).
Proof.
  split; [exact deque21_inv|].
  exact (add_last_appends deque21 _ _ 3 deque21_inv).
Defined.

(** X14: any sequence of [add_first] and [add_last] calls on the empty
    deque (as [deque_example] makes) leaves a well-formed deque, and
    [as_vec] returns the elements in the order the calls put them. *)
Theorem deque_ops_as_vec {T} (ops : list (@Deque.deque_op T)) :
  (exists ls, Deque.deque_inv (fold_left Deque.run_op ops Deque.empty) ls
                (fold_left Deque.model_op ops [])) /\
  Deque.as_vec (length ops) (fold_left Deque.run_op ops Deque.empty)
    = Finished (fold_left Deque.model_op ops []).
Proof.
  destruct (run_ops_inv ops _ _ _ deque_inv_empty) as [ls Hinv].
  split; [by exists ls|]. apply (deque_inv_as_vec _ _ _ _ Hinv).
  rewrite model_ops_length. simpl. lia.
Qed.
